(** * Phosphor: the chain combinator and the DOM query helpers

    A shallow embedding of [src/algorithm/chain.ts] and [src/dom/query.ts],
    and the properties of them that hold.

    JavaScript objects live in a store and are named by their location, so
    that two references to one iterator object are visibly the same object.
    Method calls thread the store.  A call that would throw a [TypeError]
    returns [TypeError].  Every nested method call consumes one unit of
    [fuel]: the least fuel with which a call returns is the depth its call
    stack reaches in an engine that keeps a frame for every call, calls in
    tail position included. *)

From Stdlib Require Import ZArith Lia.
From stdpp Require Import base option list gmap.

(** ** Results of method calls *)

Inductive result (A : Type) : Type :=
| Ok (a : A)
| TypeError
| OutOfFuel.
Arguments Ok {A} a.
Arguments TypeError {A}.
Arguments OutOfFuel {A}.

#[global] Instance result_ret : MRet result := fun A a => Ok a.
#[global] Instance result_bind : MBind result := fun A B f m =>
  match m with
  | Ok a => f a
  | TypeError => TypeError
  | OutOfFuel => OutOfFuel
  end.

(** * The chain combinator *)

Module Algorithm.

(** ** Values and objects *)

Abbreviation loc := nat.

(** The values that flow through the iterators: [undefined] (written
    [void 0] in the source), numbers standing for plain data, and
    references to objects of the store.  The source is compiled without
    strict null checks, it assigns [void 0] to fields and results of type
    [IIterator<T>] and [T]: [undefined] is a value of every type [T]. *)
Inductive value : Type :=
| undefined
| number (n : Z)
| object (l : loc).

#[global] Instance value_eq_dec : EqDecision value.
Proof. solve_decision. Defined.

(** The two iterator classes.  [ArrayIterator] keeps a reference to an
    array that is never written, hence the array itself is stored in the
    object; [ChainIterator] has the three private fields of the class. *)
Inductive obj : Type :=
| ArrayIterator (_source : list value) (_index : nat)
| ChainIterator (_source : loc) (_active : value) (_cloned : bool).

#[global] Instance obj_eq_dec : EqDecision obj.
Proof. solve_decision. Defined.

Abbreviation heap := (list obj).

(** [new C(...)]: the new object is placed at the first unused location. *)
Definition alloc (o : obj) (h : heap) : loc * heap := (length h, h ++ [o]).

(** Field reads and writes on a [ChainIterator]. *)
Definition get_active (this : loc) (h : heap) : value :=
  match h !! this with
  | Some (ChainIterator _ a _) => a
  | _ => undefined
  end.

Definition get_cloned (this : loc) (h : heap) : bool :=
  match h !! this with
  | Some (ChainIterator _ _ c) => c
  | _ => false
  end.

Definition set_active (this : loc) (a : value) (h : heap) : heap :=
  match h !! this with
  | Some (ChainIterator s _ c) => <[this := ChainIterator s a c]> h
  | _ => h
  end.

Definition set_cloned (this : loc) (c : bool) (h : heap) : heap :=
  match h !! this with
  | Some (ChainIterator s a _) => <[this := ChainIterator s a c]> h
  | _ => h
  end.

(** ** The array iterator *)

(** Modelled from the spec: the adapter [iter] of [./iterable] and the
    iterator it builds over an array are not part of the sources.  Section
    4.1 describes it: it tracks a read cursor over an immutable backing
    sequence, [next()] returns the element under the cursor and advances,
    or the exhausted signal once the sequence has ended.  The exhausted
    signal is [undefined], which is what [ChainIterator.next] tests for. *)
Definition array_next (src : list value) (idx : nat) : value * nat :=
  match src !! idx with
  | Some v => (v, S idx)
  | None => (undefined, idx)
  end.

(** Modelled from the spec: [clone()] of the array iterator, which section
    4.1 describes as copying the cursor together with a reference to the
    same backing sequence. *)
Definition array_clone (src : list value) (idx : nat) : obj :=
  ArrayIterator src idx.

(** [v.m(...)]: a method call on something that is not an object throws. *)
Definition invoke {A : Type} (m : loc -> heap -> result A)
    (v : value) (h : heap) : result A :=
  match v with
  | object l => m l h
  | _ => TypeError
  end.

(** ** [ChainIterator.clone] and [ChainIterator.next]

    Both are dispatched on the class of the receiver, since a chain calls
    [next] and [clone] on its source and on its active iterator through the
    [IIterator] interface. *)
Fixpoint clone (fuel : nat) (this : loc) (h : heap) {struct fuel}
    : result (loc * heap) :=
  match fuel with
  | O => OutOfFuel
  | S fuel =>
    match h !! this with
    | None => TypeError
    | Some (ArrayIterator src idx) => Ok (alloc (array_clone src idx) h)
    | Some (ChainIterator source _ _) =>
      (* let result = new ChainIterator<T>(this._source.clone()); *)
      '(source', h) ← clone fuel source h;
      let '(result, h) := alloc (ChainIterator source' undefined false) h in
      (* result._active = this._active && this._active.clone(); *)
      '(a', h) ←
        match get_active this h with
        | undefined => Ok (undefined, h)
        | number n => if Z.eqb n 0 then Ok (number n, h) else TypeError
        | object l => '(l', h) ← clone fuel l h; Ok (object l', h)
        end;
      let h := set_active result a' h in
      (* result._cloned = true; this._cloned = true; *)
      let h := set_cloned result true h in
      let h := set_cloned this true h in
      Ok (result, h)
    end
  end.

(** The second half of [next()]: pull a value from the active iterator,
    and start over when it is exhausted.  [next] is the method itself, at
    the call depth that is left. *)
Definition pull (next : loc -> heap -> result (value * heap))
    (this : loc) (active : value) (h : heap) : result (value * heap) :=
  (* let value = this._active.next(); *)
  '(value, h) ← invoke next active h;
  match value with
  | undefined =>
    (* this._active = void 0; return this.next(); *)
    next this (set_active this undefined h)
  | _ => Ok (value, h)
  end.

Fixpoint next (fuel : nat) (this : loc) (h : heap) {struct fuel}
    : result (value * heap) :=
  match fuel with
  | O => OutOfFuel
  | S fuel =>
    match h !! this with
    | None => TypeError
    | Some (ArrayIterator src idx) =>
      let '(v, idx') := array_next src idx in
      Ok (v, <[this := ArrayIterator src idx']> h)
    | Some (ChainIterator source active _) =>
      match active with
      | undefined =>
        (* this._active = this._source.next(); *)
        '(a, h) ← next fuel source h;
        let h := set_active this a h in
        match a with
        | undefined => Ok (undefined, h)
        | _ =>
          if get_cloned this h then
            (* this._active = this._active.clone(); *)
            '(a', h) ← invoke (clone fuel) a h;
            let h := set_active this (object a') h in
            pull (next fuel) this (object a') h
          else pull (next fuel) this a h
        end
      | _ => pull (next fuel) this active h
      end
    end
  end.

(** ** [chain] *)

(** An [Iterable] is an array or an object that already is an iterator. *)
Inductive iterable : Type :=
| Array (a : list value)
| Iterator (l : loc).

(** Modelled from the spec: [iter] of [./iterable] wraps an array into a
    new array iterator and returns an iterator as it is (section 4.1,
    [iterate() -> Self]). *)
Definition iter (o : iterable) (h : heap) : loc * heap :=
  match o with
  | Array a => alloc (ArrayIterator a 0) h
  | Iterator l => (l, h)
  end.

(** [objects.map(iter)], left to right. *)
Fixpoint map_iter (objects : list iterable) (h : heap) : list value * heap :=
  match objects with
  | [] => ([], h)
  | o :: objects =>
    let '(l, h) := iter o h in
    let '(ls, h) := map_iter objects h in
    (object l :: ls, h)
  end.

Definition chain (objects : list iterable) (h : heap) : loc * heap :=
  let '(its, h) := map_iter objects h in
  let '(source, h) := iter (Array its) h in
  alloc (ChainIterator source undefined false) h.

(** ** Driving iterators *)

(** [n] successive calls of [next()] on [this], each with call depth at
    most [fuel]: the values returned, in order, and the final store. *)
Fixpoint nexts (fuel : nat) (n : nat) (this : loc) (h : heap)
    : result (list value * heap) :=
  match n with
  | O => Ok ([], h)
  | S n =>
    '(v, h) ← next fuel this h;
    '(vs, h) ← nexts fuel n this h;
    Ok (v :: vs, h)
  end.


(** What is done to the chains at hand, which are numbered from 0:
    [Next j] calls [next()] on chain [j]; [Clone j] calls [clone()] on it,
    and the new chain takes the next free number. *)
Inductive op : Type :=
| Next (j : nat)
| Clone (j : nat).

#[global] Instance op_eq_dec : EqDecision op.
Proof. solve_decision. Defined.







(** ** What the specification says of a chain *)

(** A data value proper, as opposed to [undefined]. *)
Definition defined (v : value) : Prop := v ≠ undefined.

(** Successive calls of [next()] on the chain over [arrays] return every
    element of the first array in order, then every element of the second,
    and so on, and [undefined] from then on, at any call depth of at least
    [length arrays + 2]. *)
Definition chain_yields (arrays : list (list value)) : Prop :=
  ∀ (h0 : heap) (k d : nat),
    let '(c, h) := chain (Array <$> arrays) h0 in
    ∃ h', nexts (length arrays + 2 + d) (length (concat arrays) + k) c h
          = Ok (concat arrays ++ replicate k undefined, h').

(** A call of [next()] on the chain over [arrays] returns [undefined] when
    all elements have been returned by the calls before it, and only then:
    what it returns tells exhaustion from an element. *)
Definition signal_unambiguous (arrays : list (list value)) : Prop :=
  ∀ (h0 : heap) (n d : nat),
    let '(c, h) := chain (Array <$> arrays) h0 in
    ∃ vs h', nexts (length arrays + 2 + d) (S n) c h = Ok (vs, h') ∧
             (vs !! n = Some undefined ↔ length (concat arrays) ≤ n).



(** ** Nested calls of [chain] *)

#[local] Unset Elimination Schemes.

(** Nested calls of [chain]: a source is an array or the chain over a list
    of sources. *)
Inductive source : Type :=
| SArray (a : list value)
| SChain (srcs : list source).

#[local] Set Elimination Schemes.

(** The arguments of a call are evaluated left to right. *)
Definition args (build : source → heap → iterable * heap)
    : list source → heap → list iterable * heap :=
  fix go es h :=
    match es with
    | [] => ([], h)
    | e :: es =>
      let '(o, h) := build e h in
      let '(os, h) := go es h in
      (o :: os, h)
    end.

(** The value of an argument: an array as it is; a call of [chain] is
    evaluated, arguments first, and gives the chain it returns, which the
    outer call takes as the iterator it is ([ChainIterator.iter()] returns
    [this]). *)
Fixpoint build (e : source) (h : heap) : iterable * heap :=
  match e with
  | SArray a => (Array a, h)
  | SChain es =>
    let '(objs, h) := args build es h in
    let '(c, h) := chain objs h in
    (Iterator c, h)
  end.

(** [chain(e1, ..., en)], where each [ei] is an array or again a call of
    [chain]. *)
Definition nested_chain (es : list source) (h : heap) : loc * heap :=
  let '(objs, h) := args build es h in chain objs h.

(** The items of a source, in order. *)
Fixpoint items (e : source) : list value :=
  match e with
  | SArray a => a
  | SChain es => concat (items <$> es)
  end.

(** The number of iterator objects of a source: one for an array, two for
    a chain, and those of its sources. *)
Fixpoint ssize (e : source) : nat :=
  match e with
  | SArray _ => 1
  | SChain es => 2 + list_sum (ssize <$> es)
  end.

End Algorithm.

(** * The DOM query helpers *)

Module Dom.

Local Open Scope Z_scope.

(** Coordinates and scroll offsets are whole numbers of pixels, on which
    the comparisons and the sums of the source are exact. *)
Record ClientRect : Type := {
  left : Z;
  top : Z;
  right : Z;
  bottom : Z;
}.

(** What the two functions read and write of an element: its bounding
    client rectangle, as the host computes it, and its scroll offsets. *)
Record Element : Type := {
  getBoundingClientRect : ClientRect;
  scrollTop : Z;
  scrollLeft : Z;
}.

(** A document: the elements, by the reference the program holds. *)
Abbreviation ref := nat.
Abbreviation document := (gmap ref Element).

Definition hitTest (node : ref) (clientX clientY : Z) (doc : document)
    : result bool :=
  match doc !! node with
  | None => TypeError
  | Some e =>
    let rect := getBoundingClientRect e in
    Ok ((clientX >=? left rect) && (clientX <? right rect) &&
        (clientY >=? top rect) && (clientY <? bottom rect))
  end.

(** [area.scrollTop = v], as the source asks for it: what the host makes
    of the assignment (clamping, layout) is not part of the function. *)
Definition set_scrollTop (v : Z) (e : Element) : Element :=
  {| getBoundingClientRect := getBoundingClientRect e;
     scrollTop := v;
     scrollLeft := scrollLeft e |}.

Definition scrollIfNeeded (area elem : ref) (threshold : Z) (doc : document)
    : result document :=
  match doc !! area, doc !! elem with
  | Some a, Some e =>
    let ar := getBoundingClientRect a in
    let er := getBoundingClientRect e in
    if top er <? top ar - threshold then
      (* area.scrollTop -= ar.top - er.top + threshold; *)
      Ok (<[area := set_scrollTop
                      (scrollTop a - (top ar - top er + threshold)) a]> doc)
    else if bottom er >? bottom ar + threshold then
      (* area.scrollTop += er.bottom - ar.bottom + threshold; *)
      Ok (<[area := set_scrollTop
                      (scrollTop a + (bottom er - bottom ar + threshold)) a]> doc)
    else Ok doc
  | _, _ => TypeError
  end.

(** ** What the specification says of [scrollIfNeeded] *)


(** The element lies within the container's bounds expanded by
    [threshold], vertically. *)
Definition within (ar er : ClientRect) (threshold : Z) : Prop :=
  top ar - threshold ≤ top er ∧ bottom er ≤ bottom ar + threshold.



(** ** A document used as an example

    A container that shows the pixels 100 to 200, scrolled by 50, and an
    element of which the top 20 pixels lie above what the container
    shows. *)
Definition area_example : Element :=
  {| getBoundingClientRect :=
       {| left := 0; top := 100; right := 100; bottom := 200 |};
     scrollTop := 50; scrollLeft := 0 |}.

Definition elem_example : Element :=
  {| getBoundingClientRect :=
       {| left := 0; top := 80; right := 100; bottom := 100 |};
     scrollTop := 0; scrollLeft := 0 |}.

Definition doc_example : document :=
  {[ 0%nat := area_example; 1%nat := elem_example ]}.

End Dom.

Import Algorithm.

(** * The sequence a chain stands for

    The proofs compare a chain in the store with the lists of elements
    that are left in its active iterator and in the iterators its source
    has not handed out yet. *)

(** What [next()] of an array iterator with the elements [s] left means
    to a chain: a value and the elements left after it, or exhaustion.  An
    element that is [undefined] reads as exhaustion. *)
Definition sub_next (s : list value) : option (value * list value) :=
  match s with
  | [] => None
  | undefined :: _ => None
  | v :: s' => Some (v, s')
  end.

(** The elements left in the active iterator, if there is one, and in each
    iterator the source has not handed out. *)
Abbreviation cstate := (option (list value) * list (list value))%type.

(** [next()] on a chain without active iterator: the value returned and the
    state it leaves. *)
Fixpoint model_advance (pending : list (list value)) : value * cstate :=
  match pending with
  | [] => (undefined, (None, []))
  | s :: pending =>
    match sub_next s with
    | Some (v, s') => (v, (Some s', pending))
    | None => model_advance pending
    end
  end.

(** The depth of the call stack of that call: one frame for the call, one
    for the calls it makes on other objects, and one more for each
    iterator it passes over. *)
Fixpoint advance_depth (pending : list (list value)) : nat :=
  match pending with
  | [] => 2
  | s :: pending =>
    match sub_next s with
    | Some _ => 2
    | None => S (advance_depth pending)
    end
  end.

Definition model_next (st : cstate) : value * cstate :=
  match st.1 with
  | Some s =>
    match sub_next s with
    | Some (v, s') => (v, (Some s', st.2))
    | None => model_advance st.2
    end
  | None => model_advance st.2
  end.

Definition model_depth (st : cstate) : nat :=
  match st.1 with
  | Some s =>
    match sub_next s with
    | Some _ => 2
    | None => S (advance_depth st.2)
    end
  | None => advance_depth st.2
  end.

Fixpoint model_nexts (n : nat) (st : cstate) : list value * cstate :=
  match n with
  | O => ([], st)
  | S n =>
    let '(v, st) := model_next st in
    let '(vs, st) := model_nexts n st in
    (v :: vs, st)
  end.

(** A call depth that suffices from [st] on. *)
Definition model_bound (st : cstate) : nat :=
  match st.1 with
  | Some _ => length st.2 + 3
  | None => length st.2 + 2
  end.

(** The elements that are left, in the order of the sources. *)
Definition contents (st : cstate) : list value :=
  default [] st.1 ++ concat st.2.

Definition all_defined (st : cstate) : Prop :=
  Forall defined (contents st).

(** * The shape of the store around a chain *)

Definition is_array (h : heap) (v : value) : Prop :=
  ∃ l a i, v = object l ∧ h !! l = Some (ArrayIterator a i).

(** The elements left in the array iterator [v]. *)
Definition rest_of (h : heap) (v : value) : list value :=
  match v with
  | object l =>
    match h !! l with
    | Some (ArrayIterator a i) => drop i a
    | _ => []
    end
  | _ => []
  end.

Definition abs_active (h : heap) (a : value) : option (list value) :=
  match a with
  | undefined => None
  | _ => Some (rest_of h a)
  end.

(** The abstract state of a chain whose source is at index [i] of the
    array [arr] and whose active iterator is [a]. *)
Definition abs_state (h : heap) (arr : list value) (i : nat) (a : value)
    : cstate :=
  (abs_active h a, rest_of h <$> drop i arr).

(** A chain [c] as [chain] builds it over arrays and as [next] and [clone]
    leave it: its source [s] is an array iterator at index [i] of [arr];
    the entries of [arr] from [i] on are array iterators; the active
    iterator [a], if there is one, is an array iterator that is neither
    the source nor one of these entries; and as long as the chain has not
    been cloned, these entries are distinct objects. *)
Record shape (h : heap) (c s : loc) (arr : list value) (i : nat)
    (a : value) (fl : bool) : Prop := Shape {
  sh_chain : h !! c = Some (ChainIterator s a fl);
  sh_source : h !! s = Some (ArrayIterator arr i);
  sh_pending : Forall (is_array h) (drop i arr);
  sh_active : a = undefined ∨ (is_array h a ∧ a ≠ object s ∧ a ∉ drop i arr);
  sh_source_sep : object s ∉ drop i arr;
  sh_nodup : fl = false → NoDup (drop i arr);
}.

(** [h'] has the objects of [h], unchanged outside of [X], and maybe new
    ones. *)
Definition same_except (X : loc → Prop) (h h' : heap) : Prop :=
  length h ≤ length h' ∧ ∀ l, l < length h → ¬ X l → h' !! l = h !! l.








(** What [next()] does on a chain without active iterator whose source
    has the entries [pend] left: it returns what [model_advance] says, at
    the call depth [advance_depth] says, and leaves a chain of the same
    shape; it writes to the chain and to its source only, and, as long as
    the chain has not been cloned, to the iterators it pulls; a new active
    iterator is a new object once the chain has been cloned. *)
Definition advance_ok (pend : list value) : Prop :=
  ∀ h c s arr i fl,
    drop i arr = pend → shape h c s arr i undefined fl →
    ∃ h' i' a',
      (∀ f, next f c h =
            if decide (advance_depth (rest_of h <$> pend) ≤ f)
            then Ok ((model_advance (rest_of h <$> pend)).1, h')
            else OutOfFuel) ∧
      shape h' c s arr i' a' fl ∧
      (model_advance (rest_of h <$> pend)).2
        = (abs_active h' a', rest_of h' <$> drop i' arr) ∧
      i ≤ i' ∧
      same_except (λ l, l = c ∨ l = s ∨ (fl = false ∧ object l ∈ pend)) h h' ∧
      (a' = undefined ∨
       ∃ al, a' = object al ∧ if fl then length h ≤ al else a' ∈ pend).

(** The same for the second half of [next()], on a chain whose active
    iterator is [al]. *)
Definition pull_ok (pend : list value) : Prop :=
  ∀ h c s arr i fl al,
    drop i arr = pend → shape h c s arr i (object al) fl →
    ∃ h' i' a',
      (∀ f, pull (next f) c (object al) h =
            if decide (advance_depth (rest_of h <$> object al :: pend) ≤ S f)
            then Ok ((model_advance (rest_of h <$> object al :: pend)).1, h')
            else OutOfFuel) ∧
      shape h' c s arr i' a' fl ∧
      (model_advance (rest_of h <$> object al :: pend)).2
        = (abs_active h' a', rest_of h' <$> drop i' arr) ∧
      i ≤ i' ∧
      same_except
        (λ l, l = c ∨ l = s ∨ l = al ∨ (fl = false ∧ object l ∈ pend)) h h' ∧
      (a' = undefined ∨ a' = object al ∨
       ∃ al', a' = object al' ∧ if fl then length h ≤ al' else a' ∈ pend).

(** ** What no call ever undoes *)

(** An object keeps its class, an array iterator keeps its array and
    never moves back, a chain keeps its source and its flag once set. *)
Definition obj_le (o o' : obj) : Prop :=
  match o, o' with
  | ArrayIterator a i, ArrayIterator a' i' => a = a' ∧ i ≤ i'
  | ChainIterator s _ fl, ChainIterator s' _ fl' =>
    s = s' ∧ (fl = true → fl' = true)
  | _, _ => False
  end.

Definition heap_le (h h' : heap) : Prop :=
  length h ≤ length h' ∧
  ∀ l o, h !! l = Some o → ∃ o', h' !! l = Some o' ∧ obj_le o o'.

(** ** What [clone()] may change, and stores without clones *)

(** What [clone()] may change of an object that is there already: the
    flag [_cloned] of a chain, from not set to set, and nothing else. *)
Definition obj_flagged (o o' : obj) : Prop :=
  match o, o' with
  | ArrayIterator a i, ArrayIterator a' i' => a = a' ∧ i = i'
  | ChainIterator s a fl, ChainIterator s' a' fl' =>
    s = s' ∧ a = a' ∧ (fl = true → fl' = true)
  | _, _ => False
  end.

(** Every object of [h] is there in [h'], changed in the flag at most. *)
Definition only_flags (h h' : heap) : Prop :=
  length h ≤ length h' ∧
  ∀ l o, h !! l = Some o → ∃ o', h' !! l = Some o' ∧ obj_flagged o o'.

(** No chain of the store has been cloned or is a clone. *)
Definition unflagged (h : heap) : Prop :=
  ∀ l s a fl, h !! l = Some (ChainIterator s a fl) → fl = false.

(** What [objects.map(iter)] makes of one argument: an iterator object is
    taken as it is, an array gets a new iterator at its start. *)
Definition adapted (h0 h : heap) (o : iterable) (v : value) : Prop :=
  match o with
  | Iterator l => v = object l
  | Array a =>
    ∃ l, v = object l ∧ length h0 ≤ l ∧ h !! l = Some (ArrayIterator a 0)
  end.

(** * Iterators that share no object *)

#[local] Unset Elimination Schemes.

(** Iterators that share no object: an array iterator with the items
    left, or a chain with its source, its active iterator and the iterators
    its source has not handed out. *)
Inductive tree : Type :=
| Arr (l : loc) (rest : list value)
| Ch (c s : loc) (act : option tree) (pend : list tree).

#[local] Set Elimination Schemes.

(** The object that stands for the iterator. *)
Definition root (t : tree) : loc :=
  match t with Arr l _ => l | Ch c _ _ _ => c end.

(** The field [_active] of a chain. *)
Definition active_of (act : option tree) : value :=
  match act with Some a => object (root a) | None => undefined end.

(** The number of objects; a call depth that suffices for [next()]. *)
Fixpoint tsize (t : tree) : nat :=
  match t with
  | Arr _ _ => 1
  | Ch _ _ act pend =>
    2 + match act with Some a => tsize a | None => 0 end
      + list_sum (tsize <$> pend)
  end.

(** The values the iterator has yet to return. *)
Fixpoint flat (t : tree) : list value :=
  match t with
  | Arr _ rest => rest
  | Ch _ _ act pend =>
    match act with Some a => flat a | None => [] end
    ++ concat (flat <$> pend)
  end.

(** The objects the iterator is made of. *)
Fixpoint locs (t : tree) : list loc :=
  match t with
  | Arr l _ => [l]
  | Ch c s act pend =>
    c :: s :: match act with Some a => locs a | None => [] end
              ++ concat (locs <$> pend)
  end.

(** The store holds the iterator [t]: every array iterator has the values
    of [t] left and none of them is [undefined]; every chain is not
    flagged, and its source has the roots of [pend] left. *)
Fixpoint rep (h : heap) (t : tree) : Prop :=
  match t with
  | Arr l rest =>
    ∃ arr i, h !! l = Some (ArrayIterator arr i) ∧ drop i arr = rest ∧
             Forall defined rest
  | Ch c s act pend =>
    ∃ arr i,
      h !! c = Some (ChainIterator s (active_of act) false) ∧
      h !! s = Some (ArrayIterator arr i) ∧
      drop i arr = (λ p, object (root p)) <$> pend ∧
      match act with Some a => rep h a | None => True end ∧
      foldr (λ p P, rep h p ∧ P) True pend
  end.

(** What [next()] returns when the values [xs] are left. *)
Definition hd_val (xs : list value) : value :=
  match xs with [] => undefined | x :: _ => x end.

(** The objects of the active iterator and of the iterators to come. *)
Definition alocs (act : option tree) : list loc :=
  match act with Some a => locs a | None => [] end.
Definition plocs (pend : list tree) : list loc := concat (locs <$> pend).

(** What one call of [next()] does on iterators that share no object. *)
Definition tree_next_ok (t : tree) : Prop :=
  ∀ h f, rep h t → NoDup (locs t) → tsize t ≤ f →
  ∃ h' t',
    next f (root t) h = Ok (hd_val (flat t), h') ∧
    rep h' t' ∧ root t' = root t ∧ flat t' = tail (flat t) ∧
    tsize t' ≤ tsize t ∧ locs t' ⊆ locs t ∧ NoDup (locs t') ∧
    same_except (λ l, l ∈ locs t) h h'.

(** An argument of [chain] once it is evaluated: an array, or the iterators
    of a chain. *)
Definition pre_obj (x : list value + tree) : iterable :=
  match x with inl a => Array a | inr t => Iterator (root t) end.

(** The iterators among the arguments. *)
Fixpoint pre_trees (pre : list (list value + tree)) : list tree :=
  match pre with
  | [] => []
  | inl _ :: pre => pre_trees pre
  | inr t :: pre => t :: pre_trees pre
  end.

(** The argument [x] is what the source [e] evaluates to. *)
Definition pre_ok (e : source) (x : list value + tree) : Prop :=
  match x with
  | inl a => e = SArray a
  | inr t => flat t = items e ∧ tsize t = ssize e
  end.

(** What [build] gives for a source. *)
Definition build_ok (e : source) : Prop :=
  ∀ h0, Forall defined (items e) →
  ∃ new x,
    build e h0 = (pre_obj x, h0 ++ new) ∧ pre_ok e x ∧
    Forall (rep (h0 ++ new)) (pre_trees [x]) ∧
    NoDup (plocs (pre_trees [x])) ∧
    (∀ l, l ∈ plocs (pre_trees [x]) → length h0 ≤ l < length (h0 ++ new)).

(** * The chain combinator: proofs *)

(** *** Unfolding one call *)

Lemma next_S f this h :
  next (S f) this h =
    match h !! this with
    | None => TypeError
    | Some (ArrayIterator src idx) =>
      let '(v, idx') := array_next src idx in
      Ok (v, <[this := ArrayIterator src idx']> h)
    | Some (ChainIterator source active _) =>
      match active with
      | undefined =>
        '(a, h) ← next f source h;
        let h := set_active this a h in
        match a with
        | undefined => Ok (undefined, h)
        | _ =>
          if get_cloned this h then
            '(a', h) ← invoke (clone f) a h;
            let h := set_active this (object a') h in
            pull (next f) this (object a') h
          else pull (next f) this a h
        end
      | _ => pull (next f) this active h
      end
    end.
Proof. done. Qed.

Lemma clone_S f this h :
  clone (S f) this h =
    match h !! this with
    | None => TypeError
    | Some (ArrayIterator src idx) => Ok (alloc (ArrayIterator src idx) h)
    | Some (ChainIterator source _ _) =>
      '(source', h) ← clone f source h;
      let '(result, h) := alloc (ChainIterator source' undefined false) h in
      '(a', h) ←
        match get_active this h with
        | undefined => Ok (undefined, h)
        | number n => if Z.eqb n 0 then Ok (number n, h) else TypeError
        | object l => '(l', h) ← clone f l h; Ok (object l', h)
        end;
      let h := set_active result a' h in
      let h := set_cloned result true h in
      let h := set_cloned this true h in
      Ok (result, h)
    end.
Proof. done. Qed.

Lemma bind_Ok {A B} (m : result A) (k : A → result B) b :
  m ≫= k = Ok b → ∃ a, m = Ok a ∧ k a = Ok b.
Proof. destruct m; [eauto|done|done]. Qed.

Lemma next_array f l a i h :
  h !! l = Some (ArrayIterator a i) →
  next (S f) l h = Ok ((array_next a i).1, <[l := ArrayIterator a (array_next a i).2]> h).
Proof. intros H. simpl. rewrite H. by destruct (array_next a i). Qed.

Lemma clone_array f l a i h :
  h !! l = Some (ArrayIterator a i) →
  clone (S f) l h = Ok (length h, h ++ [ArrayIterator a i]).
Proof. intros H. simpl. by rewrite H. Qed.

Lemma array_next_sub a i :
  array_next a i =
    match drop i a with
    | v :: _ => (v, S i)
    | [] => (undefined, i)
    end.
Proof.
  unfold array_next. rewrite <- (Nat.add_0_r i) at 1. rewrite <- lookup_drop.
  by destruct (drop i a).
Qed.

Lemma set_active_chain c s a fl a' h :
  h !! c = Some (ChainIterator s a fl) →
  set_active c a' h = <[c := ChainIterator s a' fl]> h.
Proof. intros H. unfold set_active. by rewrite H. Qed.


(** *** Stores that agree outside of a set of locations *)

Lemma same_except_refl X h : same_except X h h.
Proof. by split. Qed.

Lemma same_except_trans (X Y : loc → Prop) h1 h2 h3 :
  same_except X h1 h2 → same_except Y h2 h3 →
  (∀ l, l < length h1 → Y l → X l) →
  same_except X h1 h3.
Proof.
  intros [L1 F1] [L2 F2] HYX. split; [lia|].
  intros l Hl HX. rewrite F2 by (auto || lia). by apply F1.
Qed.

Lemma same_except_weaken (X Y : loc → Prop) h h' :
  (∀ l, l < length h → X l → Y l) → same_except X h h' → same_except Y h h'.
Proof. intros HXY [L F]. split; [done|]. intros l Hl HY. apply F; auto. Qed.

Lemma same_except_insert (X : loc → Prop) l o h :
  X l → same_except X h (<[l := o]> h).
Proof.
  intros HX. split; [by rewrite length_insert|].
  intros l' _ HX'. apply list_lookup_insert_ne. by intros ->.
Qed.

Lemma same_except_app X h k : same_except X h (h ++ k).
Proof.
  split; [rewrite length_app; lia|]. intros l Hl _. by apply lookup_app_l.
Qed.

Lemma is_array_same X h h' v :
  same_except X h h' → is_array h v → (∀ l, v = object l → ¬ X l) →
  is_array h' v ∧ rest_of h' v = rest_of h v.
Proof.
  intros [L F] (l & a & i & -> & H) HX.
  assert (h' !! l = Some (ArrayIterator a i)) as H'.
  { rewrite F; eauto using lookup_lt_Some. }
  split; [by exists l, a, i|]. simpl. by rewrite H, H'.
Qed.

Lemma pending_same X h h' (vs : list value) :
  same_except X h h' → Forall (is_array h) vs →
  (∀ l, object l ∈ vs → ¬ X l) →
  Forall (is_array h') vs ∧ rest_of h' <$> vs = rest_of h <$> vs.
Proof.
  intros HS HF HX. split.
  - apply Forall_forall. intros v Hv.
    rewrite Forall_forall in HF.
    eapply is_array_same; eauto. by intros l ->; apply HX.
  - apply list_fmap_ext. intros k v Hk.
    apply list_elem_of_lookup_2 in Hk.
    rewrite Forall_forall in HF.
    eapply is_array_same; eauto. by intros l ->; apply HX.
Qed.


(** *** Unfolding [next] on a chain *)

Lemma pull_array f c al aa aj h :
  h !! al = Some (ArrayIterator aa aj) →
  pull (next (S f)) c (object al) h =
    match sub_next (drop aj aa) with
    | Some (v, _) => Ok (v, <[al := ArrayIterator aa (S aj)]> h)
    | None =>
      next (S f) c
        (set_active c undefined (<[al := ArrayIterator aa (array_next aa aj).2]> h))
    end.
Proof.
  intros H. unfold pull, invoke. rewrite (next_array _ _ _ _ _ H).
  rewrite array_next_sub. by destruct (drop aj aa) as [|[] ?].
Qed.

Lemma next_idle f c s fl arr i h :
  h !! c = Some (ChainIterator s undefined fl) →
  h !! s = Some (ArrayIterator arr i) →
  s ≠ c →
  next (S (S f)) c h =
    match drop i arr with
    | [] => Ok (undefined, h)
    | p :: _ =>
      let h2 := <[c := ChainIterator s p fl]> (<[s := ArrayIterator arr (S i)]> h) in
      match p with
      | undefined => Ok (undefined, h2)
      | _ =>
        if fl then
          '(a', h3) ← invoke (clone (S f)) p h2;
          pull (next (S f)) c (object a') (set_active c (object a') h3)
        else pull (next (S f)) c p h2
      end
    end.
Proof.
  intros Hc Hs Hne.
  assert (c < length h) by eauto using lookup_lt_Some.
  assert (s < length h) by eauto using lookup_lt_Some.
  rewrite next_S.
  rewrite Hc. rewrite (next_array _ _ _ _ _ Hs). rewrite array_next_sub.
  destruct (drop i arr) as [|p rest] eqn:Hd; cbn [fst snd mbind result_bind].
  - rewrite (list_insert_id h s) by done. rewrite (set_active_chain _ _ _ _ _ _ Hc).
    by rewrite list_insert_id.
  - assert (<[s:=ArrayIterator arr (S i)]> h !! c = Some (ChainIterator s undefined fl)) as Hc1.
    { by rewrite list_lookup_insert_ne. }
    rewrite (set_active_chain _ _ _ _ _ _ Hc1).
    assert (get_cloned c (<[c:=ChainIterator s p fl]> (<[s:=ArrayIterator arr (S i)]> h)) = fl) as ->.
    { unfold get_cloned. rewrite list_lookup_insert_eq; [done|by rewrite length_insert]. }
    destruct p; try done.
Qed.

Lemma next_idle_1 c s fl h :
  h !! c = Some (ChainIterator s undefined fl) → next 1 c h = OutOfFuel.
Proof. intros H. simpl. by rewrite H. Qed.

Lemma advance_depth_ge pending : 2 ≤ advance_depth pending.
Proof. induction pending as [|s p IH]; simpl; [lia|]. destruct (sub_next s); lia. Qed.

Lemma advance_nil : advance_ok [].
Proof.
  intros h c s arr i fl Hd Hsh.
  exists h, i, undefined. destruct Hsh as [Hc Hs Hp Ha Hsep Hnd].
  assert (s ≠ c) as Hne by (intros ->; congruence).
  split; [|split; [|split; [|split; [|split]]]].
  - intros [|[|f]]; simpl advance_depth; try done.
    + by rewrite (next_idle_1 _ _ _ _ Hc).
    + rewrite (next_idle _ _ _ _ _ _ _ Hc Hs Hne), Hd.
      by rewrite decide_True by lia.
  - by split.
  - by rewrite Hd.
  - done.
  - apply same_except_refl.
  - by left.
Qed.

Lemma pull_from_advance pend : advance_ok pend → pull_ok pend.
Proof.
  intros HA h c s arr i fl al <- Hsh.
  destruct Hsh as [Hc Hs Hp Ha Hsep Hnd].
  destruct Ha as [?|((l & aa & aj & [= <-] & Hal) & Hals & Hap)]; [done|].
  assert (s ≠ c) as Hne by (intros ->; congruence).
  assert (al ≠ c) as Hne' by (intros ->; congruence).
  assert (al ≠ s) as Hne'' by congruence.
  assert (c < length h) by eauto using lookup_lt_Some.
  assert (s < length h) by eauto using lookup_lt_Some.
  assert (al < length h) by eauto using lookup_lt_Some.
  assert (rest_of h (object al) = drop aj aa) as Hra by (simpl; by rewrite Hal).
  rewrite fmap_cons, Hra.
  destruct (sub_next (drop aj aa)) as [[v r']|] eqn:Hsub.
  - (* the active iterator has a value *)
    set (h' := <[al := ArrayIterator aa (S aj)]> h).
    assert (same_except (λ l, l = al) h h') as Hsame
      by (by apply same_except_insert).
    exists h', i, (object al).
    split; [|split; [|split; [|split; [|split]]]].
    + intros [|f]; cbn [advance_depth model_advance]; rewrite Hsub; [done|].
      rewrite (pull_array _ _ _ _ _ _ Hal), Hsub.
      by rewrite decide_True by lia.
    + destruct (pending_same _ _ _ _ Hsame Hp) as [Hp' _].
      { by intros l Hl ->. }
      split; try done.
      * unfold h'. by rewrite list_lookup_insert_ne.
      * unfold h'. by rewrite list_lookup_insert_ne.
      * right. split; [|done]. exists al, aa, (S aj). split; [done|].
        unfold h'. by rewrite list_lookup_insert_eq.
    + cbn [advance_depth model_advance]. rewrite Hsub. simpl. f_equal.
      * unfold h'. rewrite list_lookup_insert_eq by done.
        f_equal. destruct (drop aj aa) as [|x r] eqn:Hdr; [done|].
        assert (aa !! aj = Some x).
        { rewrite <- (Nat.add_0_r aj), <- lookup_drop. by rewrite Hdr. }
        rewrite (drop_S _ _ _ H2) in Hdr. destruct x; simplify_eq/=; done.
      * symmetry. eapply (pending_same _ h h'); eauto. by intros l Hl ->.
    + done.
    + eapply same_except_weaken; [|done]. intros; cbv beta in *; tauto.
    + by right; left.
  - (* the active iterator is exhausted *)
    set (h1 := <[al := ArrayIterator aa (array_next aa aj).2]> h).
    set (h2 := <[c := ChainIterator s undefined fl]> h1).
    assert (h1 !! c = Some (ChainIterator s (object al) fl)) as Hc1.
    { unfold h1. by rewrite list_lookup_insert_ne. }
    assert (set_active c undefined h1 = h2) as Hset
      by (by rewrite (set_active_chain _ _ _ _ _ _ Hc1)).
    assert (same_except (λ l, l = c ∨ l = al) h h2) as Hsame.
    { apply (same_except_trans _ (λ l, l = c ∨ l = al) h h1 h2).
      - apply same_except_insert. by right.
      - apply same_except_insert. by left.
      - done. }
    assert (shape h2 c s arr i undefined fl) as Hsh2.
    { destruct (pending_same _ _ _ _ Hsame Hp) as [Hp' _].
      { intros l Hl [->| ->]; [|done].
        rewrite Forall_forall in Hp. destruct (Hp _ Hl) as (?&?&?&?&?).
        simplify_eq. }
      split; try done.
      - unfold h2. rewrite list_lookup_insert_eq; [done|].
        unfold h1. by rewrite length_insert.
      - unfold h2, h1. by rewrite !list_lookup_insert_ne.
      - by left. }
    destruct (HA h2 c s arr i fl eq_refl Hsh2) as (h' & i' & a' & Hnext & Hsh' & Hmod & Hi & Hsame' & Ha').
    assert (rest_of h2 <$> drop i arr = rest_of h <$> drop i arr) as Hrest.
    { eapply (pending_same _ h h2); eauto.
      intros l Hl [->| ->]; [|done].
      rewrite Forall_forall in Hp.
      destruct (Hp _ Hl) as (?&?&?&?&?). simplify_eq. }
    rewrite Hrest in Hnext, Hmod.
    exists h', i', a'.
    split; [|split; [|split; [|split; [|split]]]].
    + intros [|f]; cbn [advance_depth model_advance]; rewrite Hsub.
      * pose proof (advance_depth_ge (rest_of h <$> drop i arr)).
        by rewrite decide_False by lia.
      * rewrite (pull_array _ _ _ _ _ _ Hal), Hsub. fold h1. rewrite Hset.
        rewrite Hnext. repeat case_decide; done || lia.
    + done.
    + cbn [advance_depth model_advance]. by rewrite Hsub.
    + done.
    + eapply same_except_trans; [| exact Hsame' |].
      * eapply same_except_weaken; [|exact Hsame]. intros; cbv beta in *; tauto.
      * intros; cbv beta in *; tauto.
    + destruct Ha' as [->|(al' & -> & Hfl)]; [by left|right; right].
      exists al'. split; [done|]. destruct fl; [|done].
      destruct Hsame as [L _]. lia.
Qed.

Lemma advance_step p rest : pull_ok rest → advance_ok (p :: rest).
Proof.
  intros HB h c s arr i fl Hd Hsh.
  destruct Hsh as [Hc Hs Hp Ha Hsep Hnd].
  rewrite Hd in Hp, Hsep, Hnd.
  apply Forall_cons in Hp as [(pl & pa & pj & -> & Hpl) Hp].
  assert (arr !! i = Some (object pl)) as Hi.
  { rewrite <- (Nat.add_0_r i), <- lookup_drop. by rewrite Hd. }
  assert (drop (S i) arr = rest) as Hd'.
  { rewrite (drop_S _ _ _ Hi) in Hd. congruence. }
  assert (s ≠ c) as Hne by (intros ->; congruence).
  assert (pl ≠ c) as Hne' by (intros ->; congruence).
  assert (pl ≠ s) as Hne''.
  { intros ->. apply Hsep. by left. }
  assert (object s ∉ rest) as Hsep' by (intros ?; apply Hsep; by right).
  assert (c < length h) by eauto using lookup_lt_Some.
  assert (s < length h) by eauto using lookup_lt_Some.
  assert (pl < length h) by eauto using lookup_lt_Some.
  assert (rest_of h (object pl) = drop pj pa) as Hra by (simpl; by rewrite Hpl).
  set (h1 := <[s := ArrayIterator arr (S i)]> h).
  set (h2 := <[c := ChainIterator s (object pl) fl]> h1).
  assert (same_except (λ l, l = c ∨ l = s) h h2) as Hsame.
  { apply (same_except_trans _ (λ l, l = c ∨ l = s) h h1 h2).
    - apply same_except_insert. by right.
    - apply same_except_insert. by left.
    - done. }
  assert (h2 !! c = Some (ChainIterator s (object pl) fl)) as Hc2.
  { unfold h2. rewrite list_lookup_insert_eq; [done|].
    unfold h1. by rewrite length_insert. }
  assert (h2 !! s = Some (ArrayIterator arr (S i))) as Hs2.
  { unfold h2, h1. rewrite list_lookup_insert_ne by done.
    by rewrite list_lookup_insert_eq. }
  assert (h2 !! pl = Some (ArrayIterator pa pj)) as Hpl2.
  { unfold h2, h1. by rewrite !list_lookup_insert_ne. }
  assert (length h2 = length h) as Hlen.
  { unfold h2, h1. by rewrite !length_insert. }
  assert (∀ l, object l ∈ rest → l ≠ c ∧ l ≠ s) as Hrest_ne.
  { intros l Hl. rewrite Forall_forall in Hp.
    destruct (Hp _ Hl) as (?&?&?&?&?). simplify_eq.
    split; intros ->; [congruence|done]. }
  destruct fl.
  - (* the chain has been cloned: the pulled iterator is cloned first *)
    set (h3 := h2 ++ [ArrayIterator pa pj]).
    set (h4 := <[c := ChainIterator s (object (length h)) true]> h3).
    assert (same_except (λ l, l = c ∨ l = s) h h4) as Hsame4.
    { apply (same_except_trans _ (λ l, l = c ∨ l = s) h h2 h4); [done| |done].
      apply (same_except_trans _ (λ l, l = c ∨ l = s) h2 h3 h4).
      - eapply same_except_weaken; [|apply (same_except_app (λ _, False))]. done.
      - apply same_except_insert. by left.
      - done. }
    assert (h4 !! length h = Some (ArrayIterator pa pj)) as Hal4.
    { unfold h4, h3. rewrite list_lookup_insert_ne by lia.
      rewrite lookup_app_r by lia. by rewrite Hlen, Nat.sub_diag. }
    assert (shape h4 c s arr (S i) (object (length h)) true) as Hsh4.
    { destruct (pending_same _ _ _ _ Hsame4 Hp) as [Hp' _].
      { intros l Hl. specialize (Hrest_ne l Hl). tauto. }
      split; rewrite ?Hd'; try done.
      - unfold h4. rewrite list_lookup_insert_eq; [done|].
        unfold h3. rewrite length_app. lia.
      - unfold h4, h3. rewrite list_lookup_insert_ne by done.
        by rewrite lookup_app_l by lia.
      - right. split; [|split].
        + by exists (length h), pa, pj.
        + intros [= ?]. lia.
        + intros Hin. rewrite Forall_forall in Hp.
          destruct (Hp _ Hin) as (?&?&?&?&?%lookup_lt_Some). simplify_eq. lia. }
    destruct (HB h4 c s arr (S i) true (length h) Hd' Hsh4)
      as (h' & i' & a' & Hnext & Hsh' & Hmod & Hi' & Hsame' & Ha').
    assert (rest_of h4 <$> object (length h) :: rest
            = rest_of h <$> object pl :: rest) as Hrest.
    { rewrite !fmap_cons. f_equal.
      - rewrite Hra. unfold rest_of. by rewrite Hal4.
      - eapply (pending_same _ h h4); eauto.
        intros l Hl. specialize (Hrest_ne l Hl). tauto. }
    rewrite Hrest in Hnext, Hmod.
    exists h', i', a'.
    split; [|split; [|split; [|split; [|split]]]].
    + intros [|[|f]].
      * pose proof (advance_depth_ge (rest_of h <$> object pl :: rest)).
        by rewrite decide_False by lia.
      * pose proof (advance_depth_ge (rest_of h <$> object pl :: rest)).
        rewrite (next_idle_1 _ _ _ _ Hc). by rewrite decide_False by lia.
      * rewrite (next_idle _ _ _ _ _ _ _ Hc Hs Hne), Hd.
        cbn zeta. fold h1 h2. unfold invoke.
        rewrite (clone_array _ _ _ _ _ Hpl2). cbn [mbind result_bind].
        rewrite Hlen. fold h3.
        assert (h3 !! c = Some (ChainIterator s (object pl) true)) as Hc3.
        { unfold h3. by rewrite lookup_app_l by lia. }
        rewrite (set_active_chain _ _ _ _ _ _ Hc3). fold h4.
        rewrite Hnext. done.
    + done.
    + done.
    + lia.
    + eapply same_except_trans; [| exact Hsame' |].
      * eapply same_except_weaken; [|exact Hsame4]. intros; cbv beta in *; tauto.
      * intros l Hl [?|[?|[?|[? _]]]]; try tauto; try done. lia.
    + destruct Ha' as [->|[->|(al' & -> & Hfl)]]; [by left|right|right].
      * exists (length h). split; [done|]. lia.
      * exists al'. split; [done|]. destruct Hsame4 as [L _]. lia.
  - (* the chain was never cloned: the pulled iterator itself is active *)
    specialize (Hnd eq_refl). apply NoDup_cons in Hnd as [Hpl_rest Hnd].
    assert (shape h2 c s arr (S i) (object pl) false) as Hsh2.
    { destruct (pending_same _ _ _ _ Hsame Hp) as [Hp' _].
      { intros l Hl. specialize (Hrest_ne l Hl). tauto. }
      split; rewrite ?Hd'; try done.
      right. split; [|split]; [|congruence|done].
      by exists pl, pa, pj. }
    destruct (HB h2 c s arr (S i) false pl Hd' Hsh2)
      as (h' & i' & a' & Hnext & Hsh' & Hmod & Hi' & Hsame' & Ha').
    assert (rest_of h2 <$> object pl :: rest
            = rest_of h <$> object pl :: rest) as Hrest.
    { rewrite !fmap_cons. f_equal.
      - rewrite Hra. unfold rest_of. by rewrite Hpl2.
      - eapply (pending_same _ h h2); eauto.
        intros l Hl. specialize (Hrest_ne l Hl). tauto. }
    rewrite Hrest in Hnext, Hmod.
    exists h', i', a'.
    split; [|split; [|split; [|split; [|split]]]].
    + intros [|[|f]].
      * pose proof (advance_depth_ge (rest_of h <$> object pl :: rest)).
        by rewrite decide_False by lia.
      * pose proof (advance_depth_ge (rest_of h <$> object pl :: rest)).
        rewrite (next_idle_1 _ _ _ _ Hc). by rewrite decide_False by lia.
      * rewrite (next_idle _ _ _ _ _ _ _ Hc Hs Hne), Hd.
        cbn zeta. fold h1 h2. by rewrite Hnext.
    + done.
    + done.
    + lia.
    + eapply same_except_trans; [| exact Hsame' |].
      * eapply same_except_weaken; [|exact Hsame]. intros; cbv beta in *; tauto.
      * intros l Hl [?|[?|[->|[? ?]]]]; try tauto.
        -- right; right. split; [done|]. by left.
        -- right; right. split; [done|]. by right.
    + destruct Ha' as [->|[->|(al' & -> & Hfl)]]; [by left|right|right].
      * exists pl. split; [done|]. by left.
      * exists al'. split; [done|]. by right.
Qed.

Lemma advance_pull_ok pend : advance_ok pend ∧ pull_ok pend.
Proof.
  induction pend as [|p rest [_ IH]].
  - split; [|apply pull_from_advance]; apply advance_nil.
  - assert (advance_ok (p :: rest)) by (by apply advance_step).
    split; [done|by apply pull_from_advance].
Qed.

Lemma next_sound h c s arr i a fl :
  shape h c s arr i a fl →
  ∃ h' i' a',
    (∀ f, next f c h =
          if decide (model_depth (abs_state h arr i a) ≤ f)
          then Ok ((model_next (abs_state h arr i a)).1, h')
          else OutOfFuel) ∧
    shape h' c s arr i' a' fl ∧
    (model_next (abs_state h arr i a)).2 = abs_state h' arr i' a' ∧
    i ≤ i' ∧
    same_except
      (λ l, l = c ∨ l = s ∨ a = object l ∨
            (fl = false ∧ object l ∈ drop i arr)) h h' ∧
    (a' = undefined ∨ a' = a ∨
     ∃ al', a' = object al' ∧
            if fl then length h ≤ al' else a' ∈ drop i arr).
Proof.
  intros Hsh. destruct (sh_active _ _ _ _ _ _ _ Hsh) as [->|(Harr & _)].
  - destruct (proj1 (advance_pull_ok (drop i arr)) h c s arr i fl eq_refl Hsh)
      as (h' & i' & a' & Hnext & Hsh' & Hmod & Hi & Hsame & Ha').
    exists h', i', a'. split; [|split; [|split; [|split; [|split]]]]; try done.
    + eapply same_except_weaken; [|exact Hsame]. intros; cbv beta in *; tauto.
    + destruct Ha' as [?|?]; [by left|by right; right].
  - destruct Harr as (al & aa & aj & -> & Hal).
    destruct (proj2 (advance_pull_ok (drop i arr)) h c s arr i fl al eq_refl Hsh)
      as (h' & i' & a' & Hnext & Hsh' & Hmod & Hi & Hsame & Ha').
    exists h', i', a'. split; [|split; [|split; [|split; [|split]]]]; try done.
    + intros [|f].
      * unfold abs_state, model_depth. cbn [fst snd abs_active].
        destruct (sub_next _); [done|].
        by rewrite decide_False by lia.
      * specialize (Hnext f). rewrite fmap_cons in Hnext.
        rewrite next_S.
        rewrite (sh_chain _ _ _ _ _ _ _ Hsh). exact Hnext.
    + eapply same_except_weaken; [|exact Hsame].
      intros l _ [?|[?|[->|?]]]; tauto.
Qed.

Lemma elem_of_drop_weaken {A} (l : list A) i j x :
  i ≤ j → x ∈ drop j l → x ∈ drop i l.
Proof.
  intros Hij Hx. replace j with (i + (j - i)) in Hx by lia.
  rewrite <- drop_drop in Hx.
  apply list_elem_of_lookup in Hx as [k Hk]. rewrite lookup_drop in Hk.
  by apply list_elem_of_lookup_2 in Hk.
Qed.

(** *** Construction *)

Lemma map_iter_arrays (arrays : list (list value)) (h0 : heap) :
  map_iter (Array <$> arrays) h0 =
    (object <$> seq (length h0) (length arrays),
     h0 ++ ((λ a, ArrayIterator a 0) <$> arrays)).
Proof.
  revert h0. induction arrays as [|a arrays IH]; intros h0; simpl.
  - by rewrite app_nil_r.
  - rewrite IH. rewrite length_app. simpl.
    rewrite Nat.add_1_r. by rewrite <- app_assoc.
Qed.

Lemma chain_arrays (arrays : list (list value)) (h0 : heap) :
  let its := object <$> seq (length h0) (length arrays) in
  let s := length h0 + length arrays in
  chain (Array <$> arrays) h0 =
    (S s, h0 ++ ((λ a, ArrayIterator a 0) <$> arrays)
             ++ [ArrayIterator its 0; ChainIterator s undefined false]).
Proof.
  intros its s. unfold chain. rewrite map_iter_arrays. simpl. unfold alloc.
  rewrite !length_app, length_fmap. simpl. fold its s.
  f_equal; [lia|]. by rewrite <- !app_assoc.
Qed.

Lemma chain_shape (arrays : list (list value)) (h0 : heap) :
  let its := object <$> seq (length h0) (length arrays) in
  let s := length h0 + length arrays in
  ∀ c h, chain (Array <$> arrays) h0 = (c, h) →
    shape h c s its 0 undefined false ∧
    abs_state h its 0 undefined = (None, arrays) ∧
    same_except (λ _, False) h0 h.
Proof.
  intros its s c h. rewrite chain_arrays. intros [= <- <-]. fold its s.
  set (subs := (λ a, ArrayIterator a 0) <$> arrays).
  set (h := h0 ++ subs ++ _).
  assert (length subs = length arrays) as Hlen by apply length_fmap.
  assert (∀ k a, arrays !! k = Some a →
                 h !! (length h0 + k) = Some (ArrayIterator a 0)) as Hsub.
  { intros k a Hk. unfold h. rewrite lookup_app_r by lia.
    replace (length h0 + k - length h0) with k by lia.
    apply lookup_app_l_Some. unfold subs. by rewrite list_lookup_fmap, Hk. }
  assert (h !! s = Some (ArrayIterator its 0)) as Hs.
  { unfold h. rewrite lookup_app_r by (unfold s; lia).
    rewrite lookup_app_r by (unfold s; lia).
    by replace (s - length h0 - length subs) with 0 by (unfold s; lia). }
  assert (h !! S s = Some (ChainIterator s undefined false)) as Hc.
  { unfold h. rewrite lookup_app_r by (unfold s; lia).
    rewrite lookup_app_r by (unfold s; lia).
    by replace (S s - length h0 - length subs) with 1 by (unfold s; lia). }
  split; [split|split]; rewrite ?drop_0; try done.
  - apply Forall_forall. intros v (l & -> & Hl)%list_elem_of_fmap.
    apply elem_of_seq in Hl.
    destruct (lookup_lt_is_Some_2 arrays (l - length h0)) as [a Ha]; [lia|].
    exists l, a, 0. split; [done|].
    specialize (Hsub _ _ Ha). by replace (length h0 + (l - length h0)) with l in Hsub by lia.
  - by left.
  - intros (l & [= <-] & Hl%elem_of_seq)%list_elem_of_fmap. unfold s in Hl. lia.
  - intros _. apply NoDup_fmap_2; [by intros ?? [= ?]|apply NoDup_seq].
  - unfold abs_state. simpl. f_equal. rewrite drop_0.
    apply list_eq. intros k. unfold its. rewrite !list_lookup_fmap.
    destruct (arrays !! k) as [a|] eqn:Ha.
    + rewrite lookup_seq_lt by eauto using lookup_lt_Some. simpl.
      by rewrite (Hsub _ _ Ha).
    + rewrite lookup_seq_ge; [done|]. by apply lookup_ge_None.
  - unfold h. apply same_except_app.
Qed.

(** *** Sequences of calls, on the abstract state *)

Lemma advance_depth_bound pending : advance_depth pending ≤ length pending + 2.
Proof.
  induction pending as [|s p IH]; simpl; [lia|]. destruct (sub_next s); lia.
Qed.

Lemma model_depth_bound st : model_depth st ≤ model_bound st.
Proof.
  destruct st as [[s|] p]; unfold model_depth, model_bound; simpl.
  - pose proof (advance_depth_bound p). destruct (sub_next s); lia.
  - apply advance_depth_bound.
Qed.

Lemma model_advance_bound pending :
  model_bound (model_advance pending).2 ≤ length pending + 2.
Proof.
  induction pending as [|s p IH]; simpl; [done|].
  destruct (sub_next s) as [[v s']|]; simpl; [unfold model_bound; simpl|]; lia.
Qed.

Lemma model_next_bound st : model_bound (model_next st).2 ≤ model_bound st.
Proof.
  destruct st as [[s|] p]; unfold model_next; simpl.
  - destruct (sub_next s) as [[v s']|]; [done|].
    pose proof (model_advance_bound p). unfold model_bound at 2. simpl. lia.
  - apply model_advance_bound.
Qed.

Lemma nexts_sound n : ∀ h c s arr i a fl f,
  shape h c s arr i a fl →
  model_bound (abs_state h arr i a) ≤ f →
  ∃ h' i' a',
    nexts f n c h = Ok ((model_nexts n (abs_state h arr i a)).1, h') ∧
    shape h' c s arr i' a' fl ∧
    (model_nexts n (abs_state h arr i a)).2 = abs_state h' arr i' a' ∧
    i ≤ i' ∧
    same_except
      (λ l, l = c ∨ l = s ∨ a = object l ∨
            (fl = false ∧ object l ∈ drop i arr)) h h' ∧
    (a' = undefined ∨ a' = a ∨
     ∃ al', a' = object al' ∧
            if fl then length h ≤ al' else a' ∈ drop i arr).
Proof.
  induction n as [|n IH]; intros h c s arr i a fl f Hsh Hf.
  - exists h, i, a. simpl.
    split; [|split; [|split; [|split; [|split]]]];
      [done|done|done|done|apply same_except_refl|by right; left].
  - destruct (next_sound _ _ _ _ _ _ _ Hsh)
      as (h1 & i1 & a1 & Hnext & Hsh1 & Hmod1 & Hi1 & Hsame1 & Ha1).
    pose proof (model_depth_bound (abs_state h arr i a)).
    pose proof (model_next_bound (abs_state h arr i a)) as Hb.
    rewrite Hmod1 in Hb.
    destruct (IH h1 c s arr i1 a1 fl f Hsh1 ltac:(lia))
      as (h' & i' & a' & Hnexts & Hsh' & Hmod' & Hi' & Hsame' & Ha').
    exists h', i', a'.
    split; [|split; [|split; [|split; [|split]]]]; try done.
    + cbn [nexts model_nexts]. rewrite Hnext, decide_True by lia.
      cbn [mbind result_bind]. rewrite Hnexts.
      destruct (model_next _) as [v st1]. simpl in Hmod1. subst st1.
      cbn [mbind result_bind]. by destruct (model_nexts n _).
    + cbn [model_nexts]. destruct (model_next _) as [v st1].
      simpl in Hmod1. subst st1. rewrite <- Hmod'.
      by destruct (model_nexts n _).
    + lia.
    + eapply same_except_trans; [exact Hsame1|exact Hsame'|].
      intros l Hl [?|[?|[Hx|[Hfl Hx]]]]; [tauto|tauto| |].
      * destruct Ha1 as [->|[->|(al1 & -> & Hfr)]]; [done|tauto|].
        injection Hx as ->. destruct fl; [lia|tauto].
      * right; right; right. split; [done|].
        eapply (elem_of_drop_weaken); eauto.
    + destruct Hsame1 as [Hlen _].
      destruct Ha' as [->|[->|(al' & -> & Hfr)]]; [by left|exact Ha1|].
      right; right. exists al'. split; [done|].
      destruct fl; [lia|]. eapply elem_of_drop_weaken; eauto.
Qed.

(** *** What the abstract state yields *)

Lemma sub_next_defined v s : defined v → sub_next (v :: s) = Some (v, s).
Proof. by destruct v. Qed.

Lemma model_advance_contents pending :
  Forall defined (concat pending) →
  match concat pending with
  | [] => model_advance pending = (undefined, (None, []))
  | v :: vs =>
    (model_advance pending).1 = v ∧
    contents (model_advance pending).2 = vs
  end.
Proof.
  induction pending as [|s p IH]; [done|]. intros Hdef.
  cbn [concat model_advance] in *.
  destruct s as [|v s'].
  - by apply IH.
  - apply Forall_cons in Hdef as [Hv _].
    by rewrite (sub_next_defined _ _ Hv).
Qed.

Lemma model_next_contents st :
  all_defined st →
  match contents st with
  | [] => model_next st = (undefined, (None, []))
  | v :: vs =>
    (model_next st).1 = v ∧ contents (model_next st).2 = vs
  end.
Proof.
  destruct st as [[s|] p]; unfold all_defined, contents, model_next;
    cbn [fst snd default].
  - destruct s as [|v s'].
    + apply model_advance_contents.
    + intros [Hv _]%Forall_cons. by rewrite (sub_next_defined _ _ Hv).
  - apply model_advance_contents.
Qed.

Lemma model_nexts_exhausted n :
  model_nexts n (None, []) = (replicate n undefined, (None, [])).
Proof. induction n as [|n IH]; [done|]. cbn. by rewrite IH. Qed.

Lemma model_nexts_contents n : ∀ st,
  all_defined st →
  (model_nexts n st).1
  = take n (contents st) ++ replicate (n - length (contents st)) undefined.
Proof.
  induction n as [|n IH]; intros st Hdef; [done|].
  pose proof (model_next_contents st Hdef) as Hnext.
  cbn [model_nexts].
  destruct (contents st) as [|v vs] eqn:Hc.
  - rewrite Hnext, model_nexts_exhausted. done.
  - destruct Hnext as [Hv Hvs].
    destruct (model_next st) as [v' st'] eqn:Hst. simpl in Hv, Hvs. subst v'.
    assert (all_defined st') as Hdef'.
    { unfold all_defined in *. rewrite Hvs. rewrite Hc in Hdef.
      by apply Forall_cons in Hdef as [_ ?]. }
    specialize (IH st' Hdef').
    destruct (model_nexts n st') as [vs' st'']. simpl in *.
    by rewrite IH, Hvs.
Qed.

(** *** Cloning *)





(** *** Changes to the store *)




Lemma model_nexts_S n st :
  (model_nexts (S n) st).1
  = (model_next st).1 :: (model_nexts n (model_next st).2).1.
Proof.
  cbn [model_nexts]. destruct (model_next st) as [v st']. cbn [fst snd].
  by destruct (model_nexts n st').
Qed.

(** *** What no call ever undoes *)

Lemma obj_le_refl o : obj_le o o.
Proof. by destruct o. Qed.

Lemma obj_le_trans o1 o2 o3 : obj_le o1 o2 → obj_le o2 o3 → obj_le o1 o3.
Proof.
  destruct o1, o2, o3; simpl; try done.
  - intros [-> ?] [-> ?]. split; [done|lia].
  - intros [-> ?] [-> ?]. split; [done|auto].
Qed.

Lemma heap_le_refl h : heap_le h h.
Proof. split; [done|]. intros l o Hl. exists o. split; [done|apply obj_le_refl]. Qed.

Lemma heap_le_trans h1 h2 h3 : heap_le h1 h2 → heap_le h2 h3 → heap_le h1 h3.
Proof.
  intros [L1 F1] [L2 F2]. split; [lia|]. intros l o1 Hl.
  destruct (F1 _ _ Hl) as (o2 & Hl2 & Hle2).
  destruct (F2 _ _ Hl2) as (o3 & Hl3 & Hle3).
  exists o3. split; [done|]. by eapply obj_le_trans.
Qed.

Lemma heap_le_app h k : heap_le h (h ++ k).
Proof.
  split; [rewrite length_app; lia|]. intros l o Hl. exists o.
  split; [by apply lookup_app_l_Some|apply obj_le_refl].
Qed.

Lemma heap_le_insert h l o o' :
  h !! l = Some o → obj_le o o' → heap_le h (<[l := o']> h).
Proof.
  intros Hl Hle. split; [by rewrite length_insert|]. intros l' o1 Hl'.
  destruct (decide (l = l')) as [<-|Hne].
  - exists o'. rewrite list_lookup_insert_eq by eauto using lookup_lt_Some.
    split; [done|]. congruence.
  - exists o1. rewrite list_lookup_insert_ne by done.
    split; [done|apply obj_le_refl].
Qed.

Lemma heap_le_set_active c a h : heap_le h (set_active c a h).
Proof.
  unfold set_active. destruct (h !! c) as [[|s a0 fl]|] eqn:Hc;
    try apply heap_le_refl.
  by eapply heap_le_insert.
Qed.

Lemma heap_le_set_cloned c h : heap_le h (set_cloned c true h).
Proof.
  unfold set_cloned. destruct (h !! c) as [[|s a0 fl]|] eqn:Hc;
    try apply heap_le_refl.
  by eapply heap_le_insert.
Qed.

Lemma clone_heap_le f : ∀ this h l' h',
  clone f this h = Ok (l', h') → heap_le h h'.
Proof.
  induction f as [|f IH]; intros this h l' h'; [done|].
  rewrite clone_S.
  destruct (h !! this) as [[src idx|source a0 fl]|] eqn:Hthis; [| |done].
  - intros [= <- <-]. apply heap_le_app.
  - intros ([s1 h1] & Hs & Hk)%bind_Ok. cbn zeta in Hk.
    unfold alloc in Hk.
    apply bind_Ok in Hk as ([a2 h3] & Ha & Hk).
    injection Hk as <- <-.
    apply IH in Hs.
    assert (heap_le (h1 ++ [ChainIterator s1 undefined false]) h3) as H3.
    { destruct (get_active this _) as [|n|l].
      - injection Ha as <- <-. apply heap_le_refl.
      - destruct (Z.eqb n 0); [|done]. injection Ha as <- <-. apply heap_le_refl.
      - apply bind_Ok in Ha as ([l2 h2] & Hc & [= <- <-]). by apply IH in Hc. }
    eapply heap_le_trans; [exact Hs|].
    eapply heap_le_trans; [apply heap_le_app|].
    eapply heap_le_trans; [exact H3|].
    eapply heap_le_trans; [apply heap_le_set_active|].
    eapply heap_le_trans; [apply heap_le_set_cloned|].
    apply heap_le_set_cloned.
Qed.

Lemma array_next_le a i : i ≤ (array_next a i).2.
Proof. unfold array_next. destruct (a !! i); simpl; lia. Qed.

Lemma pull_inv f this act h v h' :
  pull (next f) this act h = Ok (v, h') →
  ∃ l v1 h1, act = object l ∧ next f l h = Ok (v1, h1) ∧
    (v1 ≠ undefined ∧ v = v1 ∧ h' = h1 ∨
     v1 = undefined ∧ next f this (set_active this undefined h1) = Ok (v, h')).
Proof.
  unfold pull. intros ([v1 h1] & Hi & Hk)%bind_Ok.
  destruct act as [| |l]; [done|done|]. simpl in Hi.
  exists l, v1, h1. split; [done|]. split; [done|].
  destruct v1; [right|left|left]; try done.
  all: injection Hk as <- <-; done.
Qed.

Lemma next_heap_le f : ∀ this h v h',
  next f this h = Ok (v, h') → heap_le h h'.
Proof.
  induction f as [|f IH]; intros this h v h'; [done|].
  rewrite next_S.
  assert (∀ act hA, pull (next f) this act hA = Ok (v, h') → heap_le hA h')
    as Hpull.
  { intros act hA (l & v1 & h1 & -> & Hn & [(_ & _ & ->)|[_ Hrec]])%pull_inv.
    - by apply IH in Hn.
    - apply IH in Hn. apply IH in Hrec.
      eapply heap_le_trans; [exact Hn|].
      eapply heap_le_trans; [apply heap_le_set_active|exact Hrec]. }
  destruct (h !! this) as [[src idx|source a0 fl]|] eqn:Hthis; [| |done].
  - pose proof (array_next_le src idx).
    destruct (array_next src idx) as [v0 idx'].
    intros [= <- <-]. eapply heap_le_insert; [done|]. by split.
  - destruct a0 as [|n|l]; [|apply Hpull|apply Hpull].
    intros ([a1 h1] & Hs & Hk)%bind_Ok. cbn zeta in Hk. apply IH in Hs.
    assert (heap_le h1 (set_active this a1 h1)) as Hset
      by apply heap_le_set_active.
    assert (heap_le (set_active this a1 h1) h') as Hrest;
      [|exact (heap_le_trans _ _ _ Hs (heap_le_trans _ _ _ Hset Hrest))].
    destruct a1 as [|n|l].
    + injection Hk as <- <-. apply heap_le_refl.
    + destruct (get_cloned this _); [done|]. by apply Hpull in Hk.
    + destruct (get_cloned this _); [|by apply Hpull in Hk].
      apply bind_Ok in Hk as ([l2 h2] & Hc & Hk). unfold invoke in Hc.
      apply clone_heap_le in Hc. apply Hpull in Hk.
      eapply heap_le_trans; [exact Hc|].
      eapply heap_le_trans; [apply heap_le_set_active|exact Hk].
Qed.



Lemma is_chain_le h h' c s a fl :
  heap_le h h' → h !! c = Some (ChainIterator s a fl) →
  ∃ a' fl', h' !! c = Some (ChainIterator s a' fl').
Proof.
  intros [_ F] Hc. destruct (F _ _ Hc) as ([|s' a' fl'] & Hc' & Hle); [done|].
  destruct Hle as [<- _]. eauto.
Qed.

Lemma is_array_le h h' l arr i :
  heap_le h h' → h !! l = Some (ArrayIterator arr i) →
  ∃ i', h' !! l = Some (ArrayIterator arr i') ∧ i ≤ i'.
Proof.
  intros [_ F] Hc. destruct (F _ _ Hc) as ([arr' i'|] & Hc' & Hle); [|done].
  destruct Hle as [<- ?]. eauto.
Qed.


(** Once the outer array iterator has run out, the chain stays exhausted. *)
Lemma next_exhausted f : ∀ c h s a fl arr i h',
  h !! c = Some (ChainIterator s a fl) →
  h !! s = Some (ArrayIterator arr i) →
  undefined ∉ arr →
  next f c h = Ok (undefined, h') →
  ∃ fl' i', h' !! c = Some (ChainIterator s undefined fl') ∧
            h' !! s = Some (ArrayIterator arr i') ∧ length arr ≤ i'.
Proof.
  induction f as [|f IH]; intros c h s a fl arr i h' Hc Hs Harr; [done|].
  assert (s ≠ c) as Hne by (intros ->; congruence).
  assert (∀ act hA, heap_le h hA →
            pull (next f) c act hA = Ok (undefined, h') →
            ∃ fl' i', h' !! c = Some (ChainIterator s undefined fl') ∧
                      h' !! s = Some (ArrayIterator arr i') ∧ length arr ≤ i')
    as Hpull.
  { intros act hA HA (l & v1 & h1 & -> & Hn & [(? & ? & _)|[_ Hrec]])%pull_inv;
      [done|].
    apply next_heap_le in Hn.
    assert (heap_le h (set_active c undefined h1)) as Hle.
    { eapply heap_le_trans; [exact HA|].
      eapply heap_le_trans; [exact Hn|apply heap_le_set_active]. }
    destruct (is_chain_le _ _ _ _ _ _ Hle Hc) as (a' & fl' & Hc').
    destruct (is_array_le _ _ _ _ _ Hle Hs) as (i' & Hs' & _).
    by eapply IH. }
  rewrite next_S, Hc.
  destruct a as [|n|l]; [|apply Hpull, heap_le_refl|apply Hpull, heap_le_refl].
  intros ([a1 h1] & Hsn & Hk)%bind_Ok. cbn zeta in Hk.
  destruct f as [|f0]; [done|]. rewrite (next_array _ _ _ _ _ Hs) in Hsn.
  injection Hsn as <- <-.
  set (h1 := <[s := ArrayIterator arr (array_next arr i).2]> h) in *.
  assert (heap_le h h1) as H1.
  { eapply heap_le_insert; [done|]. split; [done|apply array_next_le]. }
  assert (h1 !! c = Some (ChainIterator s undefined fl)) as Hc1.
  { unfold h1. by rewrite list_lookup_insert_ne. }
  rewrite (set_active_chain _ _ _ _ _ _ Hc1) in Hk.
  set (h2 := <[c := _]> h1) in *.
  assert (heap_le h h2) as H2.
  { eapply heap_le_trans; [exact H1|]. by eapply heap_le_insert. }
  unfold array_next in *.
  destruct (arr !! i) as [v|] eqn:Hi; cbn [fst snd] in *.
  - assert (v ≠ undefined) as Hv.
    { intros ->. apply Harr. by eapply list_elem_of_lookup_2. }
    destruct v as [|n|l]; [done| |].
    + destruct (get_cloned c h2); [done|]. by apply Hpull in Hk.
    + destruct (get_cloned c h2); [|by apply Hpull in Hk].
      apply bind_Ok in Hk as ([l2 h3] & Hcl & Hk). unfold invoke in Hcl.
      apply clone_heap_le in Hcl. apply Hpull in Hk; [done|].
      eapply heap_le_trans; [exact H2|].
      eapply heap_le_trans; [exact Hcl|apply heap_le_set_active].
  - injection Hk as <-. exists fl, i. apply lookup_ge_None in Hi.
    split; [|split; [|done]].
    + unfold h2. rewrite list_lookup_insert_eq; [done|].
      unfold h1. rewrite length_insert. eauto using lookup_lt_Some.
    + unfold h2, h1. rewrite list_lookup_insert_ne by done.
      rewrite list_lookup_insert_eq; eauto using lookup_lt_Some.
Qed.


Lemma model_advance_skip empties v s rest :
  Forall (λ a, a = []) empties → defined v →
  model_advance (empties ++ (v :: s) :: rest) = (v, (Some s, rest)) ∧
  advance_depth (empties ++ (v :: s) :: rest) = length empties + 2.
Proof.
  intros He Hv.
  induction He as [|e empties -> _ IH];
    cbn [app model_advance advance_depth length].
  - by rewrite (sub_next_defined _ _ Hv).
  - destruct IH as [-> ->]. done.
Qed.

Lemma model_nexts_skip_active first : ∀ pending v s rest empties,
  Forall defined first → Forall (λ a, a = []) empties → defined v →
  pending = empties ++ (v :: s) :: rest →
  (model_nexts (length first + 1) (Some first, pending)).1 = first ++ [v].
Proof.
  induction first as [|x first IH]; intros pending v s rest empties Hf He Hv ->.
  - cbn [length Nat.add]. rewrite model_nexts_S.
    unfold model_next. cbn [fst snd sub_next model_nexts app].
    by destruct (model_advance_skip empties v s rest He Hv) as [-> _].
  - apply Forall_cons in Hf as [Hx Hf].
    cbn [length Nat.add]. rewrite model_nexts_S.
    unfold model_next. cbn [fst snd]. rewrite (sub_next_defined _ _ Hx).
    cbn [fst snd app]. f_equal. by eapply IH.
Qed.

Lemma model_nexts_skip first empties v s rest :
  Forall defined first → Forall (λ a, a = []) empties → defined v →
  (model_nexts (length first + 1)
     (None, first :: empties ++ (v :: s) :: rest)).1 = first ++ [v].
Proof.
  intros Hf He Hv. destruct first as [|x first].
  - cbn [length Nat.add]. rewrite model_nexts_S.
    unfold model_next. cbn [fst snd sub_next model_nexts model_advance app].
    by destruct (model_advance_skip empties v s rest He Hv) as [-> _].
  - apply Forall_cons in Hf as [Hx Hf].
    cbn [length Nat.add]. rewrite model_nexts_S.
    unfold model_next. cbn [fst snd model_advance].
    rewrite (sub_next_defined _ _ Hx). cbn [fst snd app]. f_equal.
    by eapply model_nexts_skip_active.
Qed.

(** *** From [chain] on *)

Lemma chain_nexts (arrays : list (list value)) (h0 : heap) c h n d :
  chain (Array <$> arrays) h0 = (c, h) →
  ∃ h' s arr i a,
    nexts (length arrays + 2 + d) n c h
      = Ok ((model_nexts n (None, arrays)).1, h') ∧
    shape h' c s arr i a false ∧
    (model_nexts n (None, arrays)).2 = abs_state h' arr i a.
Proof.
  intros Hch. destruct (chain_shape arrays h0 c h Hch) as (Hsh & Habs & _).
  destruct (nexts_sound n _ _ _ _ _ _ _ (length arrays + 2 + d) Hsh)
    as (h' & i' & a' & Hn & Hsh' & Hmod & _).
  { rewrite Habs. unfold model_bound. simpl. lia. }
  rewrite Habs in Hn, Hmod. eauto 10.
Qed.

Lemma chain_yields_defined arrays :
  Forall (Forall defined) arrays → chain_yields arrays.
Proof.
  intros Hdef h0 k d. destruct (chain _ h0) as [c h] eqn:Hch.
  destruct (chain_nexts arrays h0 c h (length (concat arrays) + k) d Hch)
    as (h' & _ & _ & _ & _ & Hn & _).
  exists h'. rewrite Hn. do 2 f_equal.
  rewrite model_nexts_contents.
  - unfold contents. simpl. rewrite take_ge by lia. f_equal. f_equal. lia.
  - unfold all_defined, contents. simpl. by apply Forall_concat.
Qed.


(** *** Any number of chains side by side *)














(** *** What [clone()] changes *)

Lemma obj_flagged_refl o : obj_flagged o o.
Proof. destruct o; simpl; auto. Qed.

Lemma obj_flagged_trans o1 o2 o3 :
  obj_flagged o1 o2 → obj_flagged o2 o3 → obj_flagged o1 o3.
Proof.
  destruct o1, o2, o3; simpl; try tauto.
  - intros [-> ->] [-> ->]. done.
  - intros (-> & -> & ?) (-> & -> & ?). auto.
Qed.

Lemma only_flags_refl h : only_flags h h.
Proof. split; [done|]. intros l o Hl. exists o. by split; [|apply obj_flagged_refl]. Qed.

Lemma only_flags_trans h1 h2 h3 :
  only_flags h1 h2 → only_flags h2 h3 → only_flags h1 h3.
Proof.
  intros [L1 F1] [L2 F2]. split; [lia|]. intros l o Hl.
  destruct (F1 _ _ Hl) as (o2 & Hl2 & Ho2).
  destruct (F2 _ _ Hl2) as (o3 & Hl3 & Ho3).
  exists o3. split; [done|]. by eapply obj_flagged_trans.
Qed.

Lemma only_flags_app h k : only_flags h (h ++ k).
Proof.
  split; [rewrite length_app; lia|]. intros l o Hl. exists o.
  split; [by apply lookup_app_l_Some|apply obj_flagged_refl].
Qed.

Lemma only_flags_new h0 h l o :
  only_flags h0 h → length h0 ≤ l → only_flags h0 (<[l := o]> h).
Proof.
  intros [L F] Hl. split; [by rewrite length_insert|]. intros l' o1 Hl'.
  destruct (F _ _ Hl') as (o' & Ho' & Hfl). exists o'. split; [|done].
  rewrite list_lookup_insert_ne; [done|].
  apply lookup_lt_Some in Hl'. lia.
Qed.

Lemma only_flags_set_cloned c h : only_flags h (set_cloned c true h).
Proof.
  unfold set_cloned. destruct (h !! c) as [[|s a fl]|] eqn:Hc;
    try apply only_flags_refl.
  split; [by rewrite length_insert|]. intros l o Hl.
  destruct (decide (l = c)) as [->|Hne].
  - rewrite list_lookup_insert_eq by eauto using lookup_lt_Some.
    eexists. split; [done|]. rewrite Hc in Hl. injection Hl as <-.
    simpl. auto.
  - rewrite list_lookup_insert_ne by done. exists o.
    split; [done|apply obj_flagged_refl].
Qed.

Lemma only_flags_set_active_new h0 h l a :
  only_flags h0 h → length h0 ≤ l → only_flags h0 (set_active l a h).
Proof.
  intros H Hl. unfold set_active.
  destruct (h !! l) as [[|s a0 fl]|]; try done. by apply only_flags_new.
Qed.

Lemma only_flags_set_cloned_new h0 h l b :
  only_flags h0 h → length h0 ≤ l → only_flags h0 (set_cloned l b h).
Proof.
  intros H Hl. unfold set_cloned.
  destruct (h !! l) as [[|s a0 fl]|]; try done. by apply only_flags_new.
Qed.

Lemma length_set_active c a h : length (set_active c a h) = length h.
Proof.
  unfold set_active. destruct (h !! c) as [[|? ? ?]|]; try done.
  by rewrite length_insert.
Qed.

Lemma length_set_cloned c b h : length (set_cloned c b h) = length h.
Proof.
  unfold set_cloned. destruct (h !! c) as [[|? ? ?]|]; try done.
  by rewrite length_insert.
Qed.

(** *** Stores without clones *)

Lemma unflagged_insert_array h l a i :
  unflagged h → unflagged (<[l := ArrayIterator a i]> h).
Proof.
  intros Hu l' s a' fl Hl'. destruct (decide (l' = l)) as [->|Hne].
  - apply list_lookup_insert_Some in Hl' as [(_ & ? & _)|[? _]]; done.
  - rewrite list_lookup_insert_ne in Hl' by done. eauto.
Qed.

Lemma unflagged_set_active c a h : unflagged h → unflagged (set_active c a h).
Proof.
  intros Hu. unfold set_active.
  destruct (h !! c) as [[|s a0 fl]|] eqn:Hc; try done.
  intros l' s' a' fl' Hl'. destruct (decide (l' = c)) as [->|Hne].
  - apply list_lookup_insert_Some in Hl' as [(_ & [= <- <- <-] & _)|[? _]];
      [|done]. eauto.
  - rewrite list_lookup_insert_ne in Hl' by done. eauto.
Qed.

Lemma unflagged_get_cloned c h : unflagged h → get_cloned c h = false.
Proof.
  intros Hu. unfold get_cloned.
  destruct (h !! c) as [[|s a fl]|] eqn:Hc; try done. eauto.
Qed.

(** *** What [chain] builds *)

Lemma map_iter_adapted (objects : list iterable) : ∀ h0,
  ∃ new its,
    map_iter objects h0 = (its, h0 ++ new) ∧
    Forall2 (adapted h0 (h0 ++ new)) objects its.
Proof.
  induction objects as [|o objects IH]; intros h0.
  - exists [], []. simpl. rewrite app_nil_r. split; [done|constructor].
  - destruct o as [a|l].
    + destruct (IH (h0 ++ [ArrayIterator a 0])) as (new & its & Hm & Hf).
      exists (ArrayIterator a 0 :: new), (object (length h0) :: its).
      assert (h0 ++ ArrayIterator a 0 :: new
              = (h0 ++ [ArrayIterator a 0]) ++ new) as ->
        by (by rewrite <- app_assoc).
      split. { cbn [map_iter iter alloc]. by rewrite Hm. }
      constructor.
      * exists (length h0). split; [done|]. split; [done|].
        apply lookup_app_l_Some.
        by rewrite lookup_app_r, Nat.sub_diag by lia.
      * eapply Forall2_impl; [exact Hf|]. intros o v.
        destruct o as [a'|l']; [|done]. intros (l & -> & Hl & Hh).
        exists l. rewrite length_app in Hl. simpl in Hl.
        split; [done|]. split; [lia|done].
    + destruct (IH h0) as (new & its & Hm & Hf).
      exists new, (object l :: its).
      split. { cbn [map_iter iter]. by rewrite Hm. }
      by constructor.
Qed.

Lemma chain_unfold (objects : list iterable) (h0 : heap) :
  ∃ new its,
    let h1 := h0 ++ new in
    let s := length h1 in
    map_iter objects h0 = (its, h1) ∧
    Forall2 (adapted h0 h1) objects its ∧
    chain objects h0
      = (S s, (h1 ++ [ArrayIterator its 0])
                ++ [ChainIterator s undefined false]).
Proof.
  destruct (map_iter_adapted objects h0) as (new & its & Hm & Hf).
  exists new, its. cbn zeta. split; [done|]. split; [done|].
  unfold chain. rewrite Hm. cbn [iter alloc]. unfold alloc.
  rewrite length_app. cbn [length]. by rewrite Nat.add_1_r.
Qed.

(** *** An iterator handed to [chain] *)

Lemma next_shared_step f c s l src j x h :
  h !! c = Some (ChainIterator s (object l) false) →
  h !! l = Some (ArrayIterator src j) →
  src !! j = Some x → x ≠ undefined →
  next (2 + f) c h = Ok (x, <[l := ArrayIterator src (S j)]> h).
Proof.
  intros Hc Hl Hj Hx. cbn [Nat.add]. rewrite next_S, Hc. unfold pull.
  cbn [invoke]. rewrite (next_array _ _ _ _ _ Hl). unfold array_next.
  rewrite Hj. cbn [fst snd mbind result_bind]. by destruct x.
Qed.

Lemma nexts_shared d c s l src m : ∀ j h,
  h !! c = Some (ChainIterator s (object l) false) →
  h !! l = Some (ArrayIterator src j) →
  j + m ≤ length src →
  Forall defined (take m (drop j src)) →
  ∃ h', nexts (2 + d) m c h = Ok (take m (drop j src), h') ∧
        h' !! l = Some (ArrayIterator src (j + m)).
Proof.
  induction m as [|m IH]; intros j h Hc Hl Hlen Hdef.
  - exists h. rewrite Nat.add_0_r. done.
  - destruct (lookup_lt_is_Some_2 src j) as [x Hj]; [lia|].
    rewrite (drop_S _ _ _ Hj) in *. cbn [take] in *.
    apply Forall_cons in Hdef as [Hx Hdef].
    assert (c ≠ l) as Hne by (intros ->; congruence).
    assert (l < length h) by eauto using lookup_lt_Some.
    destruct (IH (S j) (<[l := ArrayIterator src (S j)]> h))
      as (h' & Hns & Hl'); [| |lia|done|].
    { by rewrite list_lookup_insert_ne. }
    { by rewrite list_lookup_insert_eq. }
    exists h'. cbn [nexts].
    rewrite (next_shared_step d c s l src j x h Hc Hl Hj Hx).
    cbn [mbind result_bind]. rewrite Hns. cbn [mbind result_bind].
    split; [done|]. rewrite Hl'. do 2 f_equal. lia.
Qed.

(** *** Iterators that share no object *)

Lemma foldr_and_Forall {A} (R : A → Prop) l :
  foldr (λ p P, R p ∧ P) True l ↔ Forall R l.
Proof.
  induction l as [|x l IH]; simpl.
  - split; [constructor|done].
  - rewrite IH. split; [intros [? ?]; by constructor|by inversion 1].
Qed.

Lemma rep_Ch h c s act pend :
  rep h (Ch c s act pend) ↔
  ∃ arr i,
    h !! c = Some (ChainIterator s (active_of act) false) ∧
    h !! s = Some (ArrayIterator arr i) ∧
    drop i arr = (λ p, object (root p)) <$> pend ∧
    (∀ a, act = Some a → rep h a) ∧
    Forall (rep h) pend.
Proof.
  cbn [rep]. split.
  - intros (arr & i & Hc & Hs & Hd & Ha & Hp). exists arr, i.
    repeat (split; [done|]). split.
    + intros a ->. done.
    + by apply foldr_and_Forall.
  - intros (arr & i & Hc & Hs & Hd & Ha & Hp). exists arr, i.
    repeat (split; [done|]). split.
    + destruct act; [by apply Ha|done].
    + by apply foldr_and_Forall.
Qed.

Lemma tree_ind' (P : tree → Prop) :
  (∀ l rest, P (Arr l rest)) →
  (∀ c s act pend,
     match act with Some a => P a | None => True end →
     Forall P pend → P (Ch c s act pend)) →
  ∀ t, P t.
Proof.
  intros HA HC. fix IH 1. intros [l rest|c s act pend]; [apply HA|].
  apply HC.
  - destruct act as [a|]; [apply IH|exact I].
  - induction pend as [|p pend IHp]; constructor; [apply IH|apply IHp].
Qed.

Lemma tsize_pos t : 1 ≤ tsize t.
Proof. destruct t; simpl; lia. Qed.

Lemma elem_of_concat {A} (x : A) (ls : list (list A)) :
  x ∈ concat ls ↔ ∃ l, l ∈ ls ∧ x ∈ l.
Proof.
  induction ls as [|l ls IH]; simpl.
  - split; [by intros ?%elem_of_nil|by intros (? & ?%elem_of_nil & _)].
  - rewrite elem_of_app, IH. split.
    + intros [?|(l' & ? & ?)]; [exists l|exists l']; rewrite elem_of_cons; auto.
    + intros (l' & [->|?]%elem_of_cons & ?); eauto.
Qed.

Lemma locs_Ch c s act pend :
  locs (Ch c s act pend) = c :: s :: alocs act ++ plocs pend.
Proof. done. Qed.

Lemma elem_of_plocs l pend : l ∈ plocs pend ↔ ∃ p, p ∈ pend ∧ l ∈ locs p.
Proof.
  unfold plocs. rewrite elem_of_concat. split.
  - intros (ls & (p & -> & ?)%list_elem_of_fmap & ?). eauto.
  - intros (p & ? & ?). exists (locs p). split; [|done].
    apply list_elem_of_fmap. eauto.
Qed.

Lemma rep_frame (X : loc → Prop) h h' t :
  same_except X h h' → (∀ l, l ∈ locs t → ¬ X l) → rep h t → rep h' t.
Proof.
  intros [L F]. induction t as [l rest|c s act pend IHa IHp] using tree_ind'.
  - intros HX (arr & i & Hl & Hd & Hdef). exists arr, i.
    split; [|done]. rewrite F; [done|eauto using lookup_lt_Some|].
    apply HX. simpl. by apply list_elem_of_singleton.
  - rewrite locs_Ch. intros HX (arr & i & Hc & Hs & Hd & Ha & Hp)%rep_Ch.
    apply rep_Ch. exists arr, i.
    split. { rewrite F; [done|eauto using lookup_lt_Some|].
             apply HX. rewrite !elem_of_cons. tauto. }
    split. { rewrite F; [done|eauto using lookup_lt_Some|].
             apply HX. rewrite !elem_of_cons. tauto. }
    split; [done|]. split.
    + intros a ->. apply IHa; [|by apply Ha].
      intros l Hl. apply HX. cbn [alocs].
      rewrite !elem_of_cons, elem_of_app. tauto.
    + rewrite Forall_forall in *. intros p Hin. apply IHp; [done| |by apply Hp].
      intros l Hl. apply HX. rewrite !elem_of_cons, elem_of_app.
      right; right; right. apply elem_of_plocs; eauto.
Qed.

Lemma rep_defined h t : rep h t → Forall defined (flat t).
Proof.
  induction t as [l rest|c s act pend IHa IHp] using tree_ind'.
  - by intros (arr & i & Hl & Hd & Hdef).
  - intros (arr & i & Hc & Hs & Hd & Ha & Hp)%rep_Ch. simpl.
    apply Forall_app. split.
    + destruct act as [a|]; [by apply IHa, Ha|constructor].
    + apply Forall_concat, Forall_fmap. rewrite Forall_forall in *.
      intros p Hin. by apply IHp, Hp.
Qed.

Lemma NoDup_Ch c s act pend :
  NoDup (locs (Ch c s act pend)) ↔
  c ≠ s ∧ (c ∉ alocs act) ∧ (c ∉ plocs pend) ∧
  (s ∉ alocs act) ∧ (s ∉ plocs pend) ∧
  NoDup (alocs act) ∧ (∀ l, l ∈ alocs act → l ∉ plocs pend) ∧
  NoDup (plocs pend).
Proof.
  rewrite locs_Ch, !NoDup_cons, NoDup_app, !not_elem_of_cons, !not_elem_of_app.
  tauto.
Qed.

Lemma hd_val_defined x xs : Forall defined (x :: xs) → x ≠ undefined.
Proof. by inversion 1. Qed.

Lemma tree_pull c s a pend :
  tree_next_ok a → tree_next_ok (Ch c s None pend) →
  ∀ h f, rep h (Ch c s (Some a) pend) →
    NoDup (locs (Ch c s (Some a) pend)) →
    tsize (Ch c s (Some a) pend) ≤ S f →
    ∃ h' t',
      pull (next f) c (object (root a)) h
        = Ok (hd_val (flat (Ch c s (Some a) pend)), h') ∧
      rep h' t' ∧ root t' = c ∧
      flat t' = tail (flat (Ch c s (Some a) pend)) ∧
      tsize t' ≤ tsize (Ch c s (Some a) pend) ∧
      locs t' ⊆ locs (Ch c s (Some a) pend) ∧ NoDup (locs t') ∧
      same_except (λ l, l ∈ locs (Ch c s (Some a) pend)) h h'.
Proof.
  intros IHa IHn h f Hrep Hnd Hf.
  pose proof Hrep as (arr & i & Hc & Hs & Hd & Ha & Hp)%rep_Ch.
  pose proof Hnd as (Hcs & Hca & Hcp & Hsa & Hsp & Hnda & Hap & Hndp)%NoDup_Ch.
  cbn [alocs active_of] in *. cbn [tsize] in Hf.
  pose proof (tsize_pos a) as Hpos.
  destruct (IHa h f (Ha _ eq_refl) Hnda ltac:(lia))
    as (h1 & a' & Hn & Hrep' & Hroot & Hflat & Hsize & Hsub & Hnd' & Hsame).
  assert (h1 !! c = h !! c) as Hc1
    by (apply Hsame; [eauto using lookup_lt_Some|done]).
  assert (h1 !! s = h !! s) as Hs1
    by (apply Hsame; [eauto using lookup_lt_Some|done]).
  assert (Forall (rep h1) pend) as Hp1.
  { rewrite Forall_forall in *. intros p Hin.
    apply (rep_frame _ h h1 p Hsame); [|by apply Hp].
    intros l Hl Hla. apply (Hap l Hla). apply elem_of_plocs; eauto. }
  unfold pull. cbn [invoke]. rewrite Hn. cbn [mbind result_bind].
  destruct (flat a) as [|x xs] eqn:Hfa.
  - (* the active iterator has run out *)
    cbn [hd_val].
    set (h2 := set_active c undefined h1).
    assert (h2 = <[c := ChainIterator s undefined false]> h1) as Hh2.
    { unfold h2. eapply set_active_chain. by rewrite Hc1. }
    assert (same_except (λ l, l = c) h1 h2) as Hsame2
      by (rewrite Hh2; by apply same_except_insert).
    assert (c < length h1) by (apply lookup_lt_is_Some; rewrite Hc1; eauto).
    assert (rep h2 (Ch c s None pend)) as Hrep2.
    { apply rep_Ch. exists arr, i.
      split. { rewrite Hh2. by apply list_lookup_insert_eq. }
      split. { rewrite Hh2, list_lookup_insert_ne by done. congruence. }
      split; [done|]. split; [done|].
      rewrite Forall_forall in *. intros p Hin.
      apply (rep_frame _ h1 h2 p Hsame2); [|by apply Hp1].
      intros l Hl ->. apply Hcp. apply elem_of_plocs; eauto. }
    destruct (IHn h2 f Hrep2) as
      (h' & t' & Hn' & Hrept & Hroott & Hflatt & Hsizet & Hsubt & Hndt & Hsamet).
    { apply NoDup_Ch. cbn [alocs]. repeat split; try done.
      - by intros ?%elem_of_nil.
      - by intros ?%elem_of_nil.
      - constructor.
      - by intros ? ?%elem_of_nil. }
    { cbn [tsize]. lia. }
    exists h', t'. cbn [flat] in *. rewrite Hfa. cbn [app] in *.
    split; [done|]. split; [done|]. split; [done|]. split; [done|].
    split; [cbn [tsize] in *; lia|].
    split. { intros l Hl. apply Hsubt in Hl. rewrite ?locs_Ch in *; cbn [alocs app] in *;
      rewrite ?elem_of_cons, ?elem_of_app in *; tauto. }
    split; [done|].
    eapply same_except_trans; [|exact Hsamet|].
    + eapply same_except_trans; [|exact Hsame2|].
      * eapply same_except_weaken; [|exact Hsame].
        intros l _ Hl. rewrite ?locs_Ch in *; cbn [alocs app] in *;
      rewrite ?elem_of_cons, ?elem_of_app in *; tauto.
      * intros l _ ->. rewrite ?locs_Ch in *; cbn [alocs app] in *;
      rewrite ?elem_of_cons, ?elem_of_app in *; tauto.
    + intros l _ Hl. rewrite ?locs_Ch in *; cbn [alocs app] in *;
      rewrite ?elem_of_cons, ?elem_of_app in *; tauto.
  - (* it returns a value *)
    assert (x ≠ undefined) as Hx.
    { apply (hd_val_defined x xs). rewrite <- Hfa.
      by eapply rep_defined, Ha. }
    cbn [hd_val] in *.
    exists h1, (Ch c s (Some a') pend). cbn [flat]. rewrite Hfa, Hflat.
    split; [by destruct x|].
    split.
    { apply rep_Ch. exists arr, i. cbn [active_of]. rewrite Hroot.
      split; [congruence|]. split; [congruence|]. split; [done|].
      split; [by intros ? [= <-]|done]. }
    split; [done|]. split; [done|]. split; [cbn [tsize]; lia|].
    split. { intros l Hl. specialize (Hsub l). rewrite ?locs_Ch in *; cbn [alocs app] in *;
      rewrite ?elem_of_cons, ?elem_of_app in *; tauto. }
    split.
    { apply NoDup_Ch. cbn [alocs]. repeat split; try done.
      - intros ?%Hsub. done.
      - intros ?%Hsub. done.
      - intros l ?%Hsub. by apply Hap. }
    eapply same_except_weaken; [|exact Hsame].
    intros l _ Hl. rewrite ?locs_Ch in *; cbn [alocs app] in *;
      rewrite ?elem_of_cons, ?elem_of_app in *; tauto.
Qed.

Lemma tree_next_bounded n : ∀ t, tsize t ≤ n → tree_next_ok t.
Proof.
  induction n as [|n IH]; intros t Hsz.
  { pose proof (tsize_pos t). lia. }
  destruct t as [l rest|c s [a|] pend]; intros h f Hrep Hnd Hf.
  - (* an array iterator *)
    destruct Hrep as (arr & i & Hl & Hd & Hdef).
    destruct f as [|f]; [simpl in Hf; lia|].
    cbn [root flat]. rewrite (next_array _ _ _ _ _ Hl), array_next_sub, Hd.
    destruct rest as [|x xs]; cbn [fst snd hd_val tail].
    + exists (<[l := ArrayIterator arr i]> h), (Arr l []).
      split; [done|]. split.
      { exists arr, i. split; [|done].
        apply list_lookup_insert_eq. eauto using lookup_lt_Some. }
      repeat (split; [done|]).
      apply same_except_insert. by apply list_elem_of_singleton.
    + exists (<[l := ArrayIterator arr (S i)]> h), (Arr l xs).
      split; [done|]. split.
      { exists arr, (S i).
        split; [apply list_lookup_insert_eq; eauto using lookup_lt_Some|].
        split; [|by inversion Hdef].
        assert (arr !! i = Some x) as Hi
          by (rewrite <- (Nat.add_0_r i), <- lookup_drop; by rewrite Hd).
        rewrite (drop_S _ _ _ Hi) in Hd. congruence. }
      repeat (split; [done|]).
      apply same_except_insert. by apply list_elem_of_singleton.
  - (* a chain with an active iterator *)
    pose proof Hrep as (arr & i & Hc & Hs & Hd & Ha & Hp)%rep_Ch.
    cbn [tsize] in Hsz, Hf. pose proof (tsize_pos a).
    destruct f as [|f]; [lia|]. cbn [root].
    rewrite next_S, Hc. cbn [active_of].
    apply (tree_pull c s a pend); try done.
    + apply IH. lia.
    + apply IH. cbn [tsize]. lia.
  - (* a chain without *)
    pose proof Hrep as (arr & i & Hc & Hs & Hd & Ha & Hp)%rep_Ch.
    pose proof Hnd as (Hcs & _ & Hcp & _ & Hsp & _ & _ & Hndp)%NoDup_Ch.
    cbn [tsize] in Hsz, Hf.
    destruct f as [|[|f]]; [lia|lia|]. cbn [root].
    rewrite next_S, Hc. cbn [active_of].
    rewrite (next_array _ _ _ _ _ Hs), array_next_sub, Hd.
    destruct pend as [|p ps]; cbn [fmap list_fmap fst snd mbind result_bind].
    + rewrite (list_insert_id h s) by done.
      rewrite (set_active_chain _ _ _ _ _ _ Hc).
      rewrite (list_insert_id h c) by done.
      exists h, (Ch c s None []).
      repeat (split; [done|]). apply same_except_refl.
    + change (list_sum (tsize <$> p :: ps))
        with (tsize p + list_sum (tsize <$> ps)) in Hsz, Hf.
      pose proof (tsize_pos p).
      set (h1 := <[s := ArrayIterator arr (S i)]> h).
      assert (h1 !! c = Some (ChainIterator s undefined false)) as Hc1
        by (unfold h1; by rewrite list_lookup_insert_ne).
      rewrite (set_active_chain _ _ _ _ _ _ Hc1).
      set (h2 := <[c := ChainIterator s (object (root p)) false]> h1).
      assert (c < length h1) by eauto using lookup_lt_Some.
      assert (s < length h) by eauto using lookup_lt_Some.
      assert (h2 !! c = Some (ChainIterator s (object (root p)) false)) as Hc2
        by (unfold h2; by rewrite list_lookup_insert_eq).
      assert (get_cloned c h2 = false) as ->
        by (unfold get_cloned; by rewrite Hc2).
      assert (same_except (λ l, l = c ∨ l = s) h h2) as Hsame.
      { eapply same_except_trans;
          [apply (same_except_insert (λ l, l = c ∨ l = s) s); by right
          |apply (same_except_insert (λ l, l = c) c); done|].
        intros l _ ->. by left. }
      assert (rep h2 (Ch c s (Some p) ps)) as Hrep2.
      { apply rep_Ch. exists arr, (S i). split; [done|].
        split. { unfold h2, h1. rewrite list_lookup_insert_ne by done.
                 by rewrite list_lookup_insert_eq. }
        assert (arr !! i = Some (object (root p))) as Hi
          by (rewrite <- (Nat.add_0_r i), <- lookup_drop; by rewrite Hd).
        rewrite (drop_S _ _ _ Hi) in Hd. injection Hd as Hd.
        split; [done|].
        assert (Forall (rep h2) (p :: ps)) as Hp2.
        { rewrite Forall_forall in *. intros q Hin.
          apply (rep_frame _ h h2 q Hsame); [|by apply Hp].
          intros l Hl [->| ->].
          - apply Hcp. apply elem_of_plocs; eauto.
          - apply Hsp. apply elem_of_plocs; eauto. }
        split; [intros ? [= <-]; by inversion Hp2|by inversion Hp2]. }
      destruct (tree_pull c s p ps) with (h := h2) (f := S f)
        as (h' & t' & Hn & Hrep' & Hroot & Hflat & Hsize & Hsub & Hnd'
            & Hsame'); try done.
      * apply IH. lia.
      * apply IH. cbn [tsize]. lia.
      * exists h', t'. split; [exact Hn|].
        repeat (split; [done|]).
        eapply same_except_trans; [|exact Hsame'|].
        -- eapply same_except_weaken; [|exact Hsame].
           intros l _ Hl. cbv beta in Hl. rewrite locs_Ch, !elem_of_cons.
           tauto.
        -- intros l _ Hl. exact Hl.
Qed.

Lemma tree_next t : tree_next_ok t.
Proof. by apply (tree_next_bounded (tsize t)). Qed.

Lemma tree_nexts k : ∀ t h f,
  rep h t → NoDup (locs t) → tsize t ≤ f →
  ∃ h', nexts f k (root t) h
        = Ok (take k (flat t) ++ replicate (k - length (flat t)) undefined,
              h').
Proof.
  induction k as [|k IH]; intros t h f Hrep Hnd Hf.
  - exists h. done.
  - destruct (tree_next t h f Hrep Hnd Hf)
      as (h1 & t1 & Hn & Hrep1 & Hroot & Hflat & Hsize & _ & Hnd1 & _).
    destruct (IH t1 h1 f Hrep1 Hnd1 ltac:(lia)) as (h' & Hns).
    exists h'. cbn [nexts]. rewrite Hn. cbn [mbind result_bind].
    rewrite <- Hroot, Hns. cbn [mbind result_bind]. rewrite Hflat.
    destruct (flat t) as [|x xs]; [|done].
    cbn [tail length]. rewrite !take_nil, !Nat.sub_0_r. done.
Qed.

(** *** Nested calls of [chain] *)

Lemma rep_app h k t : rep h t → rep (h ++ k) t.
Proof.
  apply (rep_frame (λ _, False)); [apply same_except_app|tauto].
Qed.

Lemma list_sum_cons x l : list_sum (x :: l) = x + list_sum l.
Proof. done. Qed.

Lemma plocs_cons t ts : plocs (t :: ts) = locs t ++ plocs ts.
Proof. done. Qed.

Lemma map_iter_trees (pre : list (list value + tree)) : ∀ h1 lo,
  Forall (rep h1) (pre_trees pre) →
  NoDup (plocs (pre_trees pre)) →
  (∀ l, l ∈ plocs (pre_trees pre) → lo ≤ l < length h1) →
  lo ≤ length h1 →
  ∀ es, Forall2 pre_ok es pre → Forall defined (concat (items <$> es)) →
  ∃ new ts,
    map_iter (pre_obj <$> pre) h1
      = ((λ t, object (root t)) <$> ts, h1 ++ new) ∧
    Forall (rep (h1 ++ new)) ts ∧ NoDup (plocs ts) ∧
    (∀ l, l ∈ plocs ts →
          l ∈ plocs (pre_trees pre) ∨ length h1 ≤ l < length (h1 ++ new)) ∧
    concat (flat <$> ts) = concat (items <$> es) ∧
    list_sum (tsize <$> ts) = list_sum (ssize <$> es).
Proof.
  induction pre as [|x pre IH]; intros h1 lo Hrep Hnd Hrange Hlo es Hok Hdef.
  - apply Forall2_nil_inv_r in Hok as ->.
    exists [], []. simpl. rewrite app_nil_r.
    split; [done|]. split; [constructor|]. split; [constructor|].
    split; [|done]. intros l Hl. by apply elem_of_nil in Hl.
  - apply Forall2_cons_inv_r in Hok as (e & es' & Hx & Hok & ->).
    rewrite fmap_cons in Hdef. cbn [concat] in Hdef.
    apply Forall_app in Hdef as [Hdefe Hdef].
    destruct x as [a|t]; cbn [pre_ok pre_trees] in *.
    + (* an array gets an iterator of its own *)
      subst e. cbn [items] in Hdefe.
      set (h1' := h1 ++ [ArrayIterator a 0]).
      assert (length h1' = S (length h1)) as Hlen
        by (unfold h1'; rewrite length_app; simpl; lia).
      destruct (IH h1' lo) with (es := es') as
        (new & ts & Hmap & Hreps & Hnds & Hloc & Hflat & Hsize); try done.
      { eapply Forall_impl; [exact Hrep|]. intros t. apply rep_app. }
      { intros l Hl. specialize (Hrange l Hl). lia. }
      { lia. }
      exists (ArrayIterator a 0 :: new), (Arr (length h1) a :: ts).
      assert (h1 ++ ArrayIterator a 0 :: new = h1' ++ new) as ->
        by (unfold h1'; by rewrite <- app_assoc).
      split.
      { rewrite fmap_cons. cbn [pre_obj map_iter iter alloc].
        fold h1'. by rewrite Hmap. }
      split.
      { constructor; [|done]. exists a, 0. split; [|done].
        apply lookup_app_l_Some. unfold h1'.
        by rewrite lookup_app_r, Nat.sub_diag by lia. }
      split.
      { rewrite plocs_cons. cbn [locs app]. apply NoDup_cons. split; [|done].
        intros [Hl|Hl]%Hloc; [|lia]. specialize (Hrange _ Hl). lia. }
      split.
      { intros l. rewrite plocs_cons. cbn [locs app]. rewrite elem_of_cons.
        intros [->|[Hl|Hl]%Hloc]; [right|by left|right].
        - rewrite length_app, Hlen. lia.
        - lia. }
      split; [rewrite !fmap_cons; cbn [concat flat items]; by rewrite Hflat|].
      rewrite !fmap_cons, !list_sum_cons. cbn [tsize ssize]. by rewrite Hsize.
    + (* an iterator is taken as it is *)
      destruct Hx as [Hft Hst].
      apply Forall_cons in Hrep as [Hrept Hrep].
      rewrite plocs_cons in Hnd, Hrange.
      apply NoDup_app in Hnd as (Hndt & Hdisj & Hnd).
      destruct (IH h1 lo) with (es := es') as
        (new & ts & Hmap & Hreps & Hnds & Hloc & Hflat & Hsize); try done.
      { intros l Hl. apply Hrange. apply elem_of_app. by right. }
      exists new, (t :: ts).
      split.
      { rewrite fmap_cons. cbn [pre_obj map_iter iter]. by rewrite Hmap. }
      split; [constructor; [by apply rep_app|done]|].
      split.
      { rewrite plocs_cons. apply NoDup_app. split; [done|]. split; [|done].
        intros l Hl [Hl'|Hl']%Hloc; [by apply (Hdisj l)|].
        assert (l < length h1); [|lia].
        apply Hrange. apply elem_of_app. by left. }
      split.
      { intros l. rewrite !plocs_cons, !elem_of_app.
        intros [Hl|[Hl|Hl]%Hloc]; tauto. }
      split; [rewrite !fmap_cons; cbn [concat]; by rewrite Hflat, Hft|].
      rewrite !fmap_cons, !list_sum_cons. by rewrite Hst, Hsize.
Qed.

Lemma args_trees (es : list source) :
  Forall build_ok es →
  ∀ h0, Forall defined (concat (items <$> es)) →
  ∃ new pre,
    args build es h0 = (pre_obj <$> pre, h0 ++ new) ∧
    Forall2 pre_ok es pre ∧
    Forall (rep (h0 ++ new)) (pre_trees pre) ∧
    NoDup (plocs (pre_trees pre)) ∧
    (∀ l, l ∈ plocs (pre_trees pre) → length h0 ≤ l < length (h0 ++ new)).
Proof.
  induction es as [|e es IH]; intros Hall h0 Hdef.
  - exists [], []. simpl. rewrite app_nil_r.
    split; [done|]. split; [constructor|]. split; [constructor|].
    split; [constructor|]. intros l Hl. by apply elem_of_nil in Hl.
  - apply Forall_cons in Hall as [He Hall].
    rewrite fmap_cons in Hdef. cbn [concat] in Hdef.
    apply Forall_app in Hdef as [Hdefe Hdef].
    destruct (He h0 Hdefe) as (new1 & x & Hb & Hx & Hrep1 & Hnd1 & Hr1).
    destruct (IH Hall (h0 ++ new1) Hdef)
      as (new2 & pre & Ha & Hok & Hrep2 & Hnd2 & Hr2).
    exists (new1 ++ new2), (x :: pre).
    rewrite app_assoc.
    split. { cbn [args]. rewrite Hb. fold (args build). by rewrite Ha. }
    split; [by constructor|].
    destruct x as [a|t]; cbn [pre_trees] in *.
    + split; [done|]. split; [done|].
      intros l Hl. specialize (Hr2 l Hl). rewrite length_app in Hr2. lia.
    + apply Forall_cons in Hrep1 as [Hrept _].
      rewrite plocs_cons in *. unfold plocs in Hnd1, Hr1.
      cbn [fmap list_fmap concat] in Hnd1, Hr1.
      rewrite app_nil_r in Hnd1, Hr1.
      split; [constructor; [by apply rep_app|done]|].
      split.
      { apply NoDup_app. split; [done|]. split; [|done].
        intros l Hl Hl'. specialize (Hr1 l Hl). specialize (Hr2 l Hl'). lia. }
      intros l [Hl|Hl]%elem_of_app.
      * specialize (Hr1 l Hl). rewrite !length_app in *. lia.
      * specialize (Hr2 l Hl). rewrite !length_app in *. lia.
Qed.

Lemma nested_chain_tree (es : list source) (h0 : heap) :
  Forall build_ok es → Forall defined (concat (items <$> es)) →
  ∃ new t,
    nested_chain es h0 = (root t, h0 ++ new) ∧
    rep (h0 ++ new) t ∧ NoDup (locs t) ∧
    flat t = concat (items <$> es) ∧
    tsize t = 2 + list_sum (ssize <$> es) ∧
    (∀ l, l ∈ locs t → length h0 ≤ l < length (h0 ++ new)).
Proof.
  intros Hall Hdef.
  destruct (args_trees es Hall h0 Hdef)
    as (new1 & pre & Ha & Hok & Hrep1 & Hnd1 & Hr1).
  destruct (map_iter_trees pre (h0 ++ new1) (length h0) Hrep1 Hnd1 Hr1)
    with (es := es)
    as (new2 & ts & Hmap & Hreps & Hnds & Hloc & Hflat & Hsize);
    [rewrite length_app; lia|done|done|].
  set (its := (λ t, object (root t)) <$> ts) in *.
  set (h3 := (h0 ++ new1) ++ new2) in *.
  set (s := length h3). set (c := S (length h3)).
  exists (new1 ++ new2 ++ [ArrayIterator its 0;
                           ChainIterator s undefined false]),
    (Ch c s None ts).
  assert (h0 ++ new1 ++ new2 ++ [ArrayIterator its 0;
                                 ChainIterator s undefined false]
          = (h3 ++ [ArrayIterator its 0])
              ++ [ChainIterator s undefined false]) as ->.
  { unfold h3. rewrite <- !app_assoc. done. }
  assert (∀ l, l ∈ plocs ts → length h0 ≤ l < length h3) as Hr3.
  { intros l [Hl|Hl]%Hloc; [|rewrite length_app in Hl; lia].
    specialize (Hr1 l Hl). unfold h3. rewrite !length_app in *. lia. }
  split.
  { unfold nested_chain, chain. rewrite Ha, Hmap. cbn [iter alloc].
    unfold alloc. rewrite length_app. cbn [length root].
    rewrite Nat.add_1_r. done. }
  split.
  { apply rep_Ch. exists its, 0. cbn [active_of].
    split. { rewrite lookup_app_r by (rewrite length_app; simpl; lia).
             rewrite length_app. cbn [length]. unfold c.
             by replace (S (length h3) - (length h3 + 1)) with 0 by lia. }
    split. { apply lookup_app_l_Some. unfold s.
             by rewrite lookup_app_r, Nat.sub_diag by lia. }
    split; [done|]. split; [done|].
    eapply Forall_impl; [exact Hreps|]. intros t Ht.
    by apply rep_app, rep_app. }
  split.
  { apply NoDup_Ch. cbn [alocs]. unfold c, s.
    split; [lia|]. split; [by intros ?%elem_of_nil|].
    split; [intros ?%Hr3; lia|]. split; [by intros ?%elem_of_nil|].
    split; [intros ?%Hr3; lia|]. split; [constructor|].
    split; [by intros ? ?%elem_of_nil|done]. }
  split; [done|]. split; [cbn [tsize]; by rewrite Hsize|].
  intros l. rewrite locs_Ch. cbn [alocs app]. rewrite !elem_of_cons.
  assert (length h0 ≤ length h3)
    by (unfold h3; rewrite !length_app; lia).
  rewrite !length_app. cbn [length]. unfold c, s.
  intros [->|[->|Hl%Hr3]]; lia.
Qed.

Lemma source_ind' (P : source → Prop) :
  (∀ a, P (SArray a)) →
  (∀ es, Forall P es → P (SChain es)) →
  ∀ e, P e.
Proof.
  intros HA HC. fix IH 1. intros [a|es]; [apply HA|].
  apply HC. induction es as [|e es IHes]; constructor; [apply IH|apply IHes].
Qed.

Lemma build_all e : build_ok e.
Proof.
  induction e as [a|es IH] using source_ind'; intros h0 Hdef.
  - exists [], (inl a). cbn [build pre_obj pre_ok pre_trees].
    rewrite app_nil_r.
    split; [done|]. split; [done|]. split; [constructor|].
    split; [constructor|]. intros l Hl. by apply elem_of_nil in Hl.
  - cbn [items] in Hdef.
    destruct (nested_chain_tree es h0 IH Hdef)
      as (new & t & Hn & Hrep & Hnd & Hflat & Hsize & Hr).
    exists new, (inr t). cbn [pre_obj pre_ok pre_trees].
    unfold plocs. cbn [fmap list_fmap concat]. rewrite app_nil_r.
    split.
    { unfold nested_chain in Hn. cbn [build].
      destruct (args build es h0) as [objs h1].
      destruct (chain objs h1) as [c h2]. by injection Hn as -> ->. }
    split; [done|]. split; [by constructor|]. done.
Qed.

(** * The chain combinator: what holds

    Where a statement takes a call depth, it holds at every call depth
    from the one given on: [d] is what is added to it. *)






(** The setup of the specification: the chain over [[1; 2]] and [[3; 4]]
    is cloned after one call; both are then drained. *)
Example clone_12_34 :
  let '(c, h) := chain [Array [number 1; number 2];
                        Array [number 3; number 4]] [] in
  ∃ h1 c2 h2 h3 h4,
    next 4 c h = Ok (number 1, h1) ∧
    clone 4 c h1 = Ok (c2, h2) ∧
    nexts 4 4 c h2 = Ok ([number 2; number 3; number 4; undefined], h3) ∧
    nexts 4 4 c2 h3 = Ok ([number 2; number 3; number 4; undefined], h4).
Proof.
  cbn. do 5 eexists.
  split; [reflexivity|]. split; [reflexivity|].
  split; [reflexivity|]. reflexivity.
Qed.



(** C4.  On the chain over an array [first], any number of empty arrays
    and an array that starts with a value [v], [length first] calls of
    [next()] return the elements of [first]; the one call after them
    passes over the exhausted active iterator and over all the empty ones
    and returns [v].  The chain over [[]], [[1; 2]], [[]] and [[3]] returns
    1, 2, 3 and then the exhausted signal. *)
Theorem next_skips_exhausted :
  (∀ (first : list value) (empties : list (list value)) (v : value)
     (s : list value) (rest : list (list value)) (h0 : heap) (d : nat),
     Forall defined first → Forall (λ a, a = []) empties → defined v →
     let arrays := first :: empties ++ (v :: s) :: rest in
     let '(c, h) := chain (Array <$> arrays) h0 in
     ∃ h', nexts (length arrays + 2 + d) (length first + 1) c h
           = Ok (first ++ [v], h')) ∧
  (∀ h0 d,
     let '(c, h) := chain [Array []; Array [number 1; number 2];
                           Array []; Array [number 3]] h0 in
     ∃ h', nexts (6 + d) 4 c h
           = Ok ([number 1; number 2; number 3; undefined], h')).
Proof.
  split.
  - intros first empties v s rest h0 d Hf He Hv arrays.
    destruct (chain _ h0) as [c h] eqn:Hch.
    destruct (chain_nexts arrays h0 c h (length first + 1) d Hch)
      as (h' & _ & _ & _ & _ & Hn & _).
    exists h'. rewrite Hn. do 2 f_equal. by apply model_nexts_skip.
  - intros h0 d.
    apply (chain_yields_defined [[]; [number 1; number 2]; []; [number 3]]
             ltac:(repeat constructor; done) h0 1 d).
Qed.

Lemma next_skips_exhausted_witness :
  let '(c, h) := chain [Array [number 1]; Array []; Array [];
                        Array [number 2; number 3]; Array [number 4]] [] in
  ∃ h', nexts 7 2 c h = Ok ([number 1; number 2], h').
Proof.
  apply (proj1 next_skips_exhausted [number 1] [[]; []] (number 2)
           [number 3] [[number 4]] [] 0); repeat constructor; done.
Defined.

(** C5.  Let the source of a chain be an array iterator over an array that
    does not hold [undefined].  Once a call of [next()] on the chain has
    returned the exhausted signal, every later call returns it too, and
    none fails; the store does not change any more. *)
Theorem chain_stays_exhausted (f : nat) (c : loc) (h : heap) (s : loc)
    (a : value) (fl : bool) (arr : list value) (i : nat) (h' : heap) :
  h !! c = Some (ChainIterator s a fl) →
  h !! s = Some (ArrayIterator arr i) →
  undefined ∉ arr →
  next f c h = Ok (undefined, h') →
  ∀ n d, nexts (2 + d) n c h' = Ok (replicate n undefined, h').
Proof.
  intros Hc Hs Harr Hn.
  destruct (next_exhausted f c h s a fl arr i h' Hc Hs Harr Hn)
    as (fl' & i' & Hc' & Hs' & Hi').
  assert (s ≠ c) as Hne by (intros ->; congruence).
  intros n d. induction n as [|n IH]; [done|].
  cbn [nexts replicate]. cbn [Nat.add].
  rewrite (next_idle _ _ _ _ _ _ _ Hc' Hs' Hne).
  rewrite drop_ge by done. cbn [mbind result_bind].
  change (S (S d)) with (2 + d). by rewrite IH.
Qed.

Lemma chain_stays_exhausted_witness :
  let h := [ArrayIterator [number 1] 1; ArrayIterator [object 0] 1;
            ChainIterator 1 (object 0) false] in
  let h' := [ArrayIterator [number 1] 1; ArrayIterator [object 0] 1;
             ChainIterator 1 undefined false] in
  next 3 2 h = Ok (undefined, h') ∧
  nexts 2 4 2 h' = Ok (replicate 4 undefined, h').
Proof.
  split; [reflexivity|].
  apply (chain_stays_exhausted 3 2
           [ArrayIterator [number 1] 1; ArrayIterator [object 0] 1;
            ChainIterator 1 (object 0) false]
           1 (object 0) false [object 0] 1 _ eq_refl eq_refl).
  - intros H. apply list_elem_of_singleton in H. discriminate.
  - reflexivity.
Defined.

(** C6.  For arrays none of whose elements is [undefined], a call of
    [next()] on their chain returns [undefined] exactly when the calls
    before it have returned all elements.  [next()] returns the value
    [undefined] itself for exhaustion, with no wrapper around the values it
    returns. *)
Theorem exhaustion_signal arrays :
  Forall (Forall defined) arrays → signal_unambiguous arrays.
Proof.
  intros Hdef h0 n d. destruct (chain _ h0) as [c h] eqn:Hch.
  destruct (chain_nexts arrays h0 c h (S n) d Hch)
    as (h' & _ & _ & _ & _ & Hn & _).
  eexists _, h'. split; [exact Hn|].
  rewrite model_nexts_contents
    by (unfold all_defined, contents; simpl; by apply Forall_concat).
  unfold contents. cbn [fst snd default app].
  destruct (decide (length (concat arrays) ≤ n)) as [Hle|Hgt].
  - split; [done|intros _].
    rewrite take_ge by lia.
    rewrite lookup_app_r by lia.
    apply lookup_replicate_2. lia.
  - split; [|lia]. intros Hl.
    rewrite lookup_app_l in Hl by (rewrite length_take; lia).
    rewrite lookup_take_lt in Hl by lia.
    apply list_elem_of_lookup_2 in Hl.
    assert (Forall defined (concat arrays)) as Hc by (by apply Forall_concat).
    rewrite Forall_forall in Hc. by destruct (Hc _ Hl).
Qed.

Lemma exhaustion_signal_witness :
  Forall (Forall defined) [[number 1]; [number 2]] ∧
  signal_unambiguous [[number 1]; [number 2]].
Proof.
  split.
  - repeat constructor; done.
  - apply exhaustion_signal. repeat constructor; done.
Defined.

(** C6 as it is stated, for every type of values, fails on an array that
    holds [undefined]: on the chain over [[undefined; 7]] the first call
    returns [undefined] although two elements are left. *)
Lemma exhaustion_signal_collides :
  ¬ signal_unambiguous [[undefined; number 7]].
Proof.
  intros H. specialize (H [] 0 0). cbn in H.
  destruct H as (vs & h' & [= <- <-] & [H _]). specialize (H eq_refl).
  simpl in H. lia.
Qed.




(** * The chain combinator: more of what holds *)

(** X1.  [chain] is lazy: it advances no iterator and changes no object of
    the store, the objects it makes are new.  The chain it returns has no
    active iterator and is not flagged; its source is a new array iterator,
    at its start, over one entry for each argument in order: an iterator
    object is taken as it is, not copied, and an array gets a new array
    iterator at its start. *)
Theorem chain_is_lazy (objects : list iterable) (h0 : heap) :
  let '(c, h) := chain objects h0 in
  ∃ new its s,
    h = h0 ++ new ∧
    h !! c = Some (ChainIterator s undefined false) ∧
    h !! s = Some (ArrayIterator its 0) ∧
    length h0 ≤ s ∧ length h0 ≤ c ∧
    Forall2 (adapted h0 h) objects its.
Proof.
  destruct (chain_unfold objects h0) as (new & its & Hm & Hf & ->).
  set (h1 := h0 ++ new) in *.
  exists (new ++ [ArrayIterator its 0;
                  ChainIterator (length h1) undefined false]),
    its, (length h1).
  assert (length h0 ≤ length h1) by (unfold h1; rewrite length_app; lia).
  split. { unfold h1. by rewrite <- !app_assoc. }
  split. { rewrite lookup_app_r by (rewrite length_app; simpl; lia).
           rewrite length_app. cbn [length].
           by replace (S (length h1) - (length h1 + 1)) with 0 by lia. }
  split. { apply lookup_app_l_Some.
           by rewrite lookup_app_r, Nat.sub_diag by lia. }
  split; [done|]. split; [lia|].
  eapply Forall2_impl; [exact Hf|]. intros o v.
  destruct o as [a|l]; [|done]. intros (l & -> & Hl & Hh).
  exists l. split; [done|]. split; [done|].
  by apply lookup_app_l_Some, lookup_app_l_Some.
Qed.

(** X2.  On any store, a call of [clone()] that returns has advanced no
    iterator and has changed no object that was there, except that it has
    set the flag [_cloned] of chains; the object it returns is a new one. *)
Theorem clone_changes_flags_only (f : nat) (c : loc) (h : heap) (c2 : loc)
    (h' : heap) :
  clone f c h = Ok (c2, h') →
  only_flags h h' ∧ length h ≤ c2 < length h'.
Proof.
  revert c h c2 h'. induction f as [|f IH]; [done|].
  intros c h c2 h'. rewrite clone_S.
  destruct (h !! c) as [[src idx|source active fl]|] eqn:Hc; [| |done].
  - unfold alloc. intros [= <- <-]. split; [apply only_flags_app|].
    rewrite length_app. simpl. lia.
  - intros ([s2 h1] & Hs & Hk)%bind_Ok.
    destruct (IH _ _ _ _ Hs) as [Hf1 Hl1].
    unfold alloc in Hk.
    apply bind_Ok in Hk as ([a' h2] & Ha & Hk).
    injection Hk as <- <-.
    set (h1' := h1 ++ [ChainIterator s2 undefined false]) in *.
    assert (only_flags h h1') as Hf1'
      by (eapply only_flags_trans; [done|apply only_flags_app]).
    assert (length h1' = S (length h1)) as Hlen1
      by (unfold h1'; rewrite length_app; simpl; lia).
    assert (only_flags h h2 ∧ length h1' ≤ length h2) as [Hf2 Hl2].
    { destruct (get_active c h1') as [|n|l].
      - injection Ha as <- <-. done.
      - destruct (Z.eqb n 0); [|done]. injection Ha as <- <-. done.
      - apply bind_Ok in Ha as ([l' h3] & Hcl & Hk). injection Hk as <- <-.
        destruct (IH _ _ _ _ Hcl) as [Hf3 Hl3].
        split; [by eapply only_flags_trans|]. apply Hf3. }
    split.
    + eapply only_flags_trans; [|apply only_flags_set_cloned].
      apply only_flags_set_cloned_new; [|destruct Hf1; lia].
      apply only_flags_set_active_new; [done|destruct Hf1; lia].
    + rewrite !length_set_cloned, length_set_active. destruct Hf1. lia.
Qed.

Lemma clone_changes_flags_only_witness :
  let h := [ArrayIterator [number 1] 0; ArrayIterator [object 0] 0;
            ChainIterator 1 undefined false] in
  let h' := [ArrayIterator [number 1] 0; ArrayIterator [object 0] 0;
             ChainIterator 1 undefined true; ArrayIterator [object 0] 0;
             ChainIterator 3 undefined true] in
  only_flags h h' ∧ length h ≤ 4 < length h'.
Proof.
  intros h h'. apply (clone_changes_flags_only 2 2 h 4 h'). reflexivity.
Defined.

(** X3.  On any store, after a call of [next()] or of [clone()] on any
    object, every object is still there and of the class it had; an array
    iterator reads the array it read, at the same index or a later one; a
    chain has the source it had. *)
Theorem calls_never_rewind (f : nat) (this : loc) (h : heap) :
  (∀ v h', next f this h = Ok (v, h') → heap_le h h') ∧
  (∀ c2 h', clone f this h = Ok (c2, h') → heap_le h h').
Proof.
  split.
  - intros v h'. apply next_heap_le.
  - intros c2 h'. apply clone_heap_le.
Qed.

Lemma calls_never_rewind_witness :
  heap_le [ArrayIterator [number 1] 0] [ArrayIterator [number 1] 1].
Proof.
  apply (proj1 (calls_never_rewind 1 0 [ArrayIterator [number 1] 0])
           (number 1) [ArrayIterator [number 1] 1]).
  reflexivity.
Defined.

(** X4.  On a store in which no chain is flagged, that is, as long as
    [clone()] has not been called, a call of [next()] on any object makes
    no new object and flags no chain. *)
Theorem next_allocates_nothing_unflagged (f : nat) (l : loc) (h : heap)
    (v : value) (h' : heap) :
  unflagged h → next f l h = Ok (v, h') →
  length h' = length h ∧ unflagged h'.
Proof.
  revert l h v h'. induction f as [|f IH]; [done|].
  intros l h v h' Hu. rewrite next_S.
  assert (∀ act h1 v h',
            unflagged h1 → pull (next f) l act h1 = Ok (v, h') →
            length h' = length h1 ∧ unflagged h') as Hpull.
  { intros act h1 v1 h1' Hu1. unfold pull.
    intros ([w h2] & Hn & Hk)%bind_Ok.
    destruct act as [| |al]; try done. simpl in Hn.
    destruct (IH _ _ _ _ Hu1 Hn) as [L2 U2].
    destruct w.
    - destruct (IH _ _ _ _ (unflagged_set_active l undefined _ U2) Hk)
        as [L3 U3].
      rewrite length_set_active in L3. split; [lia|done].
    - injection Hk as <- <-. done.
    - injection Hk as <- <-. done. }
  destruct (h !! l) as [[src idx|source active fl]|] eqn:Hl; [| |done].
  - destruct (array_next src idx) as [w idx']. intros [= <- <-].
    split; [by rewrite length_insert|by apply unflagged_insert_array].
  - destruct active as [|n|al]; [|by apply Hpull|by apply Hpull].
    intros ([a h1] & Hn & Hk)%bind_Ok.
    destruct (IH _ _ _ _ Hu Hn) as [L1 U1].
    pose proof (unflagged_set_active l a _ U1) as U2.
    destruct a as [|n|al]; cbn zeta in Hk;
      [|rewrite (unflagged_get_cloned l _ U2) in Hk..].
    + injection Hk as <- <-. by rewrite length_set_active.
    + destruct (Hpull _ _ _ _ U2 Hk) as [L3 U3].
      rewrite length_set_active in L3. split; [lia|done].
    + destruct (Hpull _ _ _ _ U2 Hk) as [L3 U3].
      rewrite length_set_active in L3. split; [lia|done].
Qed.

Lemma next_allocates_nothing_unflagged_witness :
  let h := [ArrayIterator [number 1] 0; ArrayIterator [object 0] 0;
            ChainIterator 1 undefined false] in
  let h' := [ArrayIterator [number 1] 1; ArrayIterator [object 0] 1;
             ChainIterator 1 (object 0) false] in
  unflagged h ∧ length h' = length h ∧ unflagged h'.
Proof.
  intros h h'.
  assert (unflagged h) as Hu.
  { intros [|[|[|l]]] s a fl; cbv; congruence. }
  split; [exact Hu|].
  apply (next_allocates_nothing_unflagged 2 2 h (number 1) h' Hu).
  reflexivity.
Defined.

(** X5.  Calls of [chain] may be nested to any depth.  Let each source of
    a chain be an array or again a chain over sources, and let no array
    hold [undefined]: successive calls of [next()] on the outermost chain
    return the elements of all arrays, in the order in which the arrays
    are written, and the exhausted signal from then on, at any call depth
    of at least the number of iterator objects made. *)
Theorem nested_chain_flattens (es : list source) (h0 : heap) (k d : nat) :
  Forall defined (items (SChain es)) →
  let '(c, h) := nested_chain es h0 in
  ∃ h', nexts (ssize (SChain es) + d) (length (items (SChain es)) + k) c h
        = Ok (items (SChain es) ++ replicate k undefined, h').
Proof.
  intros Hdef. cbn [items ssize] in *.
  destruct (nested_chain_tree es h0) as
    (new & t & Hn & Hrep & Hnd & Hflat & Hsize & _); [|done|].
  { apply Forall_forall. intros e _. apply build_all. }
  rewrite Hn.
  destruct (tree_nexts (length (concat (items <$> es)) + k) t
              (h0 ++ new) (2 + list_sum (ssize <$> es) + d) Hrep Hnd
              ltac:(lia)) as (h' & Hns).
  exists h'. rewrite Hns, Hflat. f_equal. f_equal.
  rewrite take_ge by lia. f_equal. f_equal. lia.
Qed.

Lemma nested_chain_flattens_witness :
  let es := [SArray [number 1];
             SChain [SArray [number 2]; SChain []; SArray [number 3]];
             SArray [number 4]] in
  Forall defined (items (SChain es)) ∧
  let '(c, h) := nested_chain es [] in
  ∃ h', nexts 10 5 c h
        = Ok ([number 1; number 2; number 3; number 4; undefined], h').
Proof.
  split.
  - repeat constructor; done.
  - apply (nested_chain_flattens
             [SArray [number 1];
              SChain [SArray [number 2]; SChain []; SArray [number 3]];
              SArray [number 4]] [] 1 0).
    repeat constructor; done.
Defined.

(** X6.  [next()] on a chain with no active iterator whose source hands
    out a number, which is no iterator, fails with a [TypeError], whether
    the chain is flagged or not. *)
Theorem next_on_non_iterator (f : nat) (c s : loc) (fl : bool)
    (arr : list value) (i : nat) (n : Z) (h : heap) :
  h !! c = Some (ChainIterator s undefined fl) →
  h !! s = Some (ArrayIterator arr i) →
  arr !! i = Some (number n) →
  next (2 + f) c h = TypeError.
Proof.
  intros Hc Hs Hi. cbn [Nat.add]. rewrite next_S, Hc.
  rewrite (next_array _ _ _ _ _ Hs). unfold array_next. rewrite Hi.
  cbn [fst snd mbind result_bind].
  destruct (get_cloned _ _); done.
Qed.

Lemma next_on_non_iterator_witness :
  next 2 1 [ArrayIterator [number 5] 0; ChainIterator 0 undefined false]
  = TypeError.
Proof.
  apply (next_on_non_iterator 0 1 0 false [number 5] 0 5
           [ArrayIterator [number 5] 0; ChainIterator 0 undefined false]);
    reflexivity.
Defined.

(** X7.  [chain] does not copy an iterator it is given.  Let the first
    argument be an array iterator with at least [n] elements left, none of
    them [undefined], whatever the other arguments: [n] calls of [next()]
    on the chain return these [n] elements, and the iterator object itself
    has then advanced by [n]. *)
Theorem chain_shares_iterator (l : loc) (src : list value) (i : nat)
    (objects : list iterable) (h0 : heap) (n d : nat) :
  h0 !! l = Some (ArrayIterator src i) →
  i + n ≤ length src →
  Forall defined (take n (drop i src)) →
  let '(c, h) := chain (Iterator l :: objects) h0 in
  ∃ h', nexts (2 + d) n c h = Ok (take n (drop i src), h') ∧
        h' !! l = Some (ArrayIterator src (i + n)).
Proof.
  intros Hl Hlen Hdef.
  destruct (chain_unfold (Iterator l :: objects) h0)
    as (new & its & Hm & Hf & ->).
  apply Forall2_cons_inv_l in Hf as (v & its' & Hv & _ & ->).
  cbn [adapted] in Hv. subst v.
  set (h1 := h0 ++ new) in *. set (s := length h1).
  set (h := (h1 ++ _) ++ _).
  assert (l < length h0) by eauto using lookup_lt_Some.
  assert (length h0 ≤ length h1) by (unfold h1; rewrite length_app; lia).
  assert (h !! l = Some (ArrayIterator src i)) as Hhl.
  { unfold h, h1. by do 3 apply lookup_app_l_Some. }
  assert (h !! s = Some (ArrayIterator (object l :: its') 0)) as Hs.
  { unfold h. apply lookup_app_l_Some.
    by rewrite lookup_app_r, Nat.sub_diag by (unfold s; lia). }
  assert (h !! S s = Some (ChainIterator s undefined false)) as Hc.
  { unfold h. rewrite lookup_app_r by (rewrite length_app; simpl; lia).
    rewrite length_app. cbn [length]. unfold s.
    by replace (S (length h1) - (length h1 + 1)) with 0 by lia. }
  destruct n as [|n].
  { exists h. rewrite Nat.add_0_r. done. }
  destruct (lookup_lt_is_Some_2 src i) as [x Hi]; [lia|].
  rewrite (drop_S _ _ _ Hi) in *. cbn [take] in *.
  apply Forall_cons in Hdef as [Hx Hdef].
  assert (s < length h) by eauto using lookup_lt_Some.
  assert (S s < length h) by eauto using lookup_lt_Some.
  set (h2 := <[S s := ChainIterator s (object l) false]>
               (<[s := ArrayIterator (object l :: its') 1]> h)).
  assert (h2 !! l = Some (ArrayIterator src i)) as Hl2.
  { unfold h2. rewrite !list_lookup_insert_ne by (unfold s; lia). done. }
  assert (h2 !! S s = Some (ChainIterator s (object l) false)) as Hc2.
  { unfold h2. rewrite list_lookup_insert_eq; [done|].
    by rewrite length_insert. }
  assert (next (2 + d) (S s) h
          = Ok (x, <[l := ArrayIterator src (S i)]> h2)) as Hfirst.
  { cbn [Nat.add]. rewrite next_S, Hc.
    rewrite (next_array _ _ _ _ _ Hs). unfold array_next at 1 2.
    cbn [lookup list_lookup fst snd mbind result_bind].
    assert (set_active (S s) (object l)
              (<[s := ArrayIterator (object l :: its') 1]> h) = h2) as ->.
    { eapply set_active_chain. by rewrite list_lookup_insert_ne by lia. }
    assert (get_cloned (S s) h2 = false) as ->
      by (unfold get_cloned; by rewrite Hc2).
    unfold pull. cbn [invoke]. rewrite (next_array _ _ _ _ _ Hl2).
    unfold array_next. rewrite Hi. cbn [fst snd mbind result_bind].
    by destruct x. }
  assert (l < length h2) by eauto using lookup_lt_Some.
  destruct (nexts_shared d (S s) s l src n (S i)
              (<[l := ArrayIterator src (S i)]> h2))
    as (h' & Hns & Hl'); [| |lia|done|].
  { rewrite list_lookup_insert_ne by (unfold s; lia). done. }
  { by rewrite list_lookup_insert_eq. }
  exists h'. cbn [nexts]. rewrite Hfirst. cbn [mbind result_bind].
  rewrite Hns. cbn [mbind result_bind]. split; [done|].
  rewrite Hl'. do 2 f_equal. lia.
Qed.

Lemma chain_shares_iterator_witness :
  let src := [number 1; number 2; number 3] in
  let '(c, h) := chain [Iterator 0; Array [number 9]] [ArrayIterator src 1] in
  ∃ h', nexts 2 2 c h = Ok ([number 2; number 3], h') ∧
        h' !! 0 = Some (ArrayIterator src 3).
Proof.
  intros src.
  apply (chain_shares_iterator 0 src 1 [Array [number 9]]
           [ArrayIterator src 1] 2 0).
  - reflexivity.
  - simpl. lia.
  - repeat constructor; done.
Defined.

(** * The DOM query helpers: what holds *)

Import Dom.

Section dom.

Local Open Scope Z_scope.

(** C8.  [hitTest] returns true exactly for the points of the bounding
    rectangle of the node, left and top edges included, right and bottom
    edges excluded.  For the rectangle from (0, 0) to (100, 100) it
    returns true at (0, 0) and at (99, 99), false at (100, 50) and at
    (50, 100). *)
Theorem hitTest_half_open :
  (∀ (doc : document) (node : ref) (e : Element) (x y : Z),
     doc !! node = Some e →
     let rect := getBoundingClientRect e in
     ∃ b, hitTest node x y doc = Ok b ∧
          (b = true ↔
           left rect ≤ x < right rect ∧ top rect ≤ y < bottom rect)) ∧
  (∀ (doc : document) (node : ref) (e : Element),
     doc !! node = Some e →
     getBoundingClientRect e
       = {| left := 0; top := 0; right := 100; bottom := 100 |} →
     hitTest node 0 0 doc = Ok true ∧ hitTest node 99 99 doc = Ok true ∧
     hitTest node 100 50 doc = Ok false ∧ hitTest node 50 100 doc = Ok false).
Proof.
  split.
  - intros doc n e x y Hn rect. unfold hitTest. rewrite Hn. fold rect.
    eexists. split; [done|].
    rewrite !andb_true_iff, !Z.geb_le, !Z.ltb_lt. tauto.
  - intros doc n e Hn Hrect. unfold hitTest. by rewrite Hn, Hrect.
Qed.

Lemma hitTest_half_open_witness :
  let e := {| getBoundingClientRect :=
                {| left := 0; top := 0; right := 100; bottom := 100 |};
              scrollTop := 0; scrollLeft := 0 |} in
  hitTest 7 0 0 {[7%nat := e]} = Ok true ∧
  hitTest 7 99 99 {[7%nat := e]} = Ok true ∧
  hitTest 7 100 50 {[7%nat := e]} = Ok false ∧
  hitTest 7 50 100 {[7%nat := e]} = Ok false.
Proof.
  intros e. apply (proj2 hitTest_half_open {[7%nat := e]} 7%nat e); reflexivity.
Defined.





(** C10.  Whenever [scrollIfNeeded] returns: every element other than the
    container is as it was; of the container, the bounding rectangle and
    [scrollLeft] are as they were, so that at most its [scrollTop] has
    changed; and when the element lies within tolerance vertically, the
    document is as it was, wherever the element lies horizontally. *)
Theorem scrollIfNeeded_frame (doc : document) (area elem : ref) (t : Z)
    (doc' : document) :
  scrollIfNeeded area elem t doc = Ok doc' →
  (∀ node, node ≠ area → doc' !! node = doc !! node) ∧
  (∃ a a', doc !! area = Some a ∧ doc' !! area = Some a' ∧
           getBoundingClientRect a' = getBoundingClientRect a ∧
           scrollLeft a' = scrollLeft a) ∧
  (∀ a e, doc !! area = Some a → doc !! elem = Some e →
          within (getBoundingClientRect a) (getBoundingClientRect e) t →
          doc' = doc).
Proof.
  unfold scrollIfNeeded.
  destruct (doc !! area) as [a|] eqn:Ha; [|done].
  destruct (doc !! elem) as [e|] eqn:He; [|done].
  intros Hrun. split; [|split].
  - intros n Hn. repeat case_match; simplify_eq; try done;
      by rewrite lookup_insert_ne.
  - exists a. repeat case_match; simplify_eq;
      try (eexists; rewrite lookup_insert_eq; by repeat split).
    by exists a.
  - intros a0 e0 [= <-] [= <-] [Htop Hbot].
    destruct (Z.ltb_spec (top (getBoundingClientRect e))
                (top (getBoundingClientRect a) - t)); [lia|].
    destruct (Z.gtb_spec (bottom (getBoundingClientRect e))
                (bottom (getBoundingClientRect a) + t)); [lia|].
    by injection Hrun.
Qed.

Lemma scrollIfNeeded_frame_witness :
  let doc' := <[0%nat := set_scrollTop 20 area_example]> doc_example in
  scrollIfNeeded 0 1 10 doc_example = Ok doc' ∧
  doc' !! 1%nat = doc_example !! 1%nat.
Proof.
  intros doc'. split; [reflexivity|].
  apply (proj1 (scrollIfNeeded_frame doc_example 0%nat 1%nat 10 doc' eq_refl)).
  done.
Defined.

(** The value of [hitTest] as one test. *)
Lemma hitTest_spec (doc : document) (node : ref) (e : Element) (x y : Z) :
  doc !! node = Some e →
  let rect := getBoundingClientRect e in
  hitTest node x y doc
  = Ok (bool_decide (left rect ≤ x < right rect ∧ top rect ≤ y < bottom rect)).
Proof.
  intros Hn rect. unfold hitTest. rewrite Hn. fold rect. f_equal.
  apply eq_true_iff_eq.
  rewrite !andb_true_iff, !Z.geb_le, !Z.ltb_lt, bool_decide_eq_true. tauto.
Qed.

(** X8.  A node whose bounding rectangle is empty, its right edge not
    right of its left edge or its bottom edge not below its top edge, is
    hit at no point, the points of its edges included. *)
Theorem hitTest_empty_rectangle (doc : document) (node : ref) (e : Element)
    (x y : Z) :
  doc !! node = Some e →
  let rect := getBoundingClientRect e in
  right rect ≤ left rect ∨ bottom rect ≤ top rect →
  hitTest node x y doc = Ok false.
Proof.
  intros Hn rect Hempty. rewrite (hitTest_spec doc node e x y Hn). fold rect.
  f_equal. apply bool_decide_eq_false. lia.
Qed.

Lemma hitTest_empty_rectangle_witness :
  let e := {| getBoundingClientRect :=
                {| left := 10; top := 0; right := 10; bottom := 100 |};
              scrollTop := 0; scrollLeft := 0 |} in
  hitTest 7 10 50 {[7%nat := e]} = Ok false.
Proof.
  intros e. apply (hitTest_empty_rectangle {[7%nat := e]} 7%nat e 10 50).
  - reflexivity.
  - left. simpl. lia.
Defined.







End dom.
